(** * Harmonic cascade of the HIFU demos

    A shallow embedding of two demo scripts of the repository,

    - [demo/hifu/domain_convergence_transducer.py]
      (module [Convergence] below), and
    - [demo/hifu/transducer_nonlinear_homogeneous_interpolation.py]
      (module [Interpolation] below),

    together with the properties of the nonlinear source term, of the
    grid refinement policy, of the domain truncation study and of the
    attenuation law that hold (or fail) on that code.

    Conventions of the embedding.
    - A Python float is an exact rational ([Q]); rounding is not modelled.
      A [complex128] is a pair of rationals.  Operations that leave the
      rationals ([np.abs] of a complex number, [**] with a float exponent,
      [10**x]) are parameters of the development.
    - An [ndarray] of shape [(L, M, N)] is its shape and its index function.
    - A raised Python exception is the [Raise] case of [result].
    - External collaborators that are not part of the scripts
      ([generatedomain], [mvp_volume_potential], the scipy interpolator)
      are section variables. *)

From Stdlib Require Import QArith Qabs Qround ZArith List Lia Lqa Bool.
From stdpp Require Import base list.
Import ListNotations.

(** ** Exceptions *)

Inductive exn : Type := IndexError | NameError | ValueError.

Inductive result (A : Type) : Type :=
| Ok (a : A)
| Raise (e : exn).
Arguments Ok {A} a.
Arguments Raise {A} e.

Definition rbind {A B : Type} (m : result A) (k : A -> result B) : result B :=
  match m with
  | Ok a => k a
  | Raise e => Raise e
  end.

Declare Scope result_scope.
Delimit Scope result_scope with result.
Notation "'let?' x ':=' m 'in' k" := (rbind m (fun x => k))
  (at level 10, x pattern, m at level 100, k at level 200) : result_scope.

(** [seq[i]] on a Python list or along the first axis of an array, for a
    non-negative index. *)
Definition getitem {A : Type} (l : list A) (i : nat) : result A :=
  match l !! i with
  | Some a => Ok a
  | None => Raise IndexError
  end.

(** ** Scalars *)

Record C : Type := mkC { re : Q; im : Q }.

Definition Czero : C := mkC 0 0.
Definition Cadd (a b : C) : C := mkC (re a + re b) (im a + im b).
Definition Cmul (a b : C) : C :=
  mkC (re a * re b - im a * im b) (re a * im b + im a * re b).
(** float times complex *)
Definition Cscale (k : Q) (a : C) : C := mkC (k * re a) (k * im a).
Definition RtoC (x : Q) : C := mkC x 0.

#[export] Instance C_equiv : Equiv C :=
  fun a b => (re a == re b)%Q /\ (im a == im b)%Q.

(** ** Arrays *)

Definition shape3 : Type := (nat * nat * nat)%type.
Definition index3 : Type := (nat * nat * nat)%type.

(** All indices of an array of shape [(L, M, N)], in C order. *)
Definition indices (s : shape3) : list index3 :=
  let '(L, M, N) := s in
  flat_map (fun i =>
    flat_map (fun j => map (fun k => (i, j, k)) (seq 0 N)) (seq 0 M))
    (seq 0 L).

Record ndarray : Type := mkArr {
  shape : shape3;
  data : nat -> nat -> nat -> C
}.

(** Two arrays are equivalent when they have the same shape and equivalent
    entries. *)
#[export] Instance ndarray_equiv : Equiv ndarray :=
  fun a b => shape a = shape b /\ forall i j k, data a i j k ≡ data b i j k.

Definition zeros (s : shape3) : ndarray := mkArr s (fun _ _ _ => Czero).

Definition at_index (a : ndarray) (x : index3) : C :=
  let '(i, j, k) := x in data a i j k.

(** The voxel grid [r] of shape [(L, M, N, 3)]: [coords r i j k d] is
    [r[i, j, k, d]]. *)
Record grid : Type := mkGrid {
  gshape : shape3;
  coords : nat -> nat -> nat -> nat -> Q
}.

(** The array operations the source term is built from: elementwise product
    and sum of two arrays, product of a float with an array.  The operands of
    the scripts always have one common shape, which the result keeps. *)
Class ArrayOps (F : Type) : Type := {
  amul : F -> F -> F;
  aadd : F -> F -> F;
  ascale : Q -> F -> F
}.

#[export] Instance ndarray_ops : ArrayOps ndarray := {|
  amul a b := mkArr (shape a) (fun i j k => Cmul (data a i j k) (data b i j k));
  aadd a b := mkArr (shape a) (fun i j k => Cadd (data a i j k) (data b i j k));
  ascale q a := mkArr (shape a) (fun i j k => Cscale q (data a i j k))
|}.

Declare Scope array_scope.
Delimit Scope array_scope with arr.
Infix ".*" := amul (at level 40, left associativity) : array_scope.
Infix ".+" := aadd (at level 50, left associativity) : array_scope.
Infix "$*" := ascale (at level 40, left associativity) : array_scope.

(** ** The store of array objects

    Names of the scripts are bound to array objects; an object is a location
    of the store.  Allocation returns a fresh location, an assignment into an
    array ([a[...] = v]) updates the object in place. *)

Abbreviation loc := nat.
Abbreviation heap := (list ndarray).

Definition M (A : Type) : Type := heap -> result (A * heap).

Definition mret {A : Type} (a : A) : M A := fun h => Ok (a, h).

Definition mbind {A B : Type} (m : M A) (k : A -> M B) : M B :=
  fun h =>
    match m h with
    | Ok (a, h') => k a h'
    | Raise e => Raise e
    end.

Definition lift {A : Type} (m : result A) : M A :=
  fun h =>
    match m with
    | Ok a => Ok (a, h)
    | Raise e => Raise e
    end.

Definition alloc (a : ndarray) : M loc := fun h => Ok (length h, h ++ [a]).

Definition load (l : loc) : M ndarray :=
  fun h =>
    match h !! l with
    | Some a => Ok (a, h)
    | None => Raise NameError
    end.

Definition store (l : loc) (a : ndarray) : M unit :=
  fun h =>
    match h !! l with
    | Some _ => Ok (tt, <[l := a]> h)
    | None => Raise NameError
    end.

Declare Scope heap_scope.
Delimit Scope heap_scope with heap.
Notation "x <- m ;; k" := (mbind m (fun x => k))
  (at level 100, m at next level, right associativity) : heap_scope.

Fixpoint load_all (ls : list loc) : M (list ndarray) :=
  match ls with
  | [] => mret []
  | l :: ls' =>
      (a <- load l ;; rest <- load_all ls' ;; mret (a :: rest))%heap
  end.

(** A name that may not be bound yet. *)
Definition lookup_name {A : Type} (x : option A) : M A :=
  match x with
  | Some a => mret a
  | None => fun _ => Raise NameError
  end.

(** What the [if/elif] ladder over [i_harm] does to the name [xIn]. *)
Inductive ladder (F : Type) : Type :=
| Assigned (x : F)      (* a branch ran and bound [xIn] *)
| Fallthrough           (* no branch matched: [xIn] keeps its binding *)
| Raised (e : exn).
Arguments Assigned {F} x.
Arguments Fallthrough {F}.
Arguments Raised {F} e.

Definition ladder_of {F : Type} (m : result F) : ladder F :=
  match m with
  | Ok x => Assigned x
  | Raise e => Raised e
  end.

(** The scalar in front of every branch:
    [n * beta * omega**2 / (rho * c**4)]. *)
Definition coupling (n beta omega rho c : Q) : Q :=
  (n * beta * omega ^ 2 / (rho * c ^ 4))%Q.

(** ** demo/hifu/domain_convergence_transducer.py *)

Module Convergence.

Section Attenuation.
(** Python's [**] on floats. *)
Variable fpow : Q -> Q -> Q.

Definition attenuation (f alpha0 eta : Q) : Q :=
  let alpha := (alpha0 * fpow (f * 1e-6) eta)%Q in
  let alpha := (alpha / 8.686)%Q in
  alpha.
End Attenuation.

Section SourceTerm.
Context {F : Type} `{ArrayOps F}.
Variables beta omega rho c : Q.
Local Open Scope array_scope.
Local Open Scope result_scope.

(** Lines 246-260: the vector for the matrix-vector product. *)
Definition xIn_ladder (i_harm : nat) (P : list F) : ladder F :=
  match i_harm with
  | 1 =>
      ladder_of (let? P0 := getitem P 0 in
                 Ok (coupling (-2) beta omega rho c $* P0 .* P0))
  | 2 =>
      ladder_of (let? P0 := getitem P 0 in
                 let? P1 := getitem P 1 in
                 Ok (coupling (-9) beta omega rho c $* P0 .* P1))
  | 3 =>
      ladder_of (let? P1 := getitem P 1 in
                 let? P0 := getitem P 0 in
                 let? P2 := getitem P 2 in
                 Ok (coupling (-8) beta omega rho c $*
                       (P1 .* P1 .+ 2 $* P0 .* P2)))
  | 4 =>
      ladder_of (let? P0 := getitem P 0 in
                 let? P3 := getitem P 3 in
                 let? P1 := getitem P 1 in
                 let? P2 := getitem P 2 in
                 Ok (coupling (-25) beta omega rho c $*
                       (P0 .* P3 .+ P1 .* P2)))
  | _ => Fallthrough
  end.
End SourceTerm.

(** *** The truncation study, lines 169-230 *)

Record box : Type := mkBox {
  min_x_idx : nat; max_x_idx : nat;
  min_y_idx : nat; max_y_idx : nat;
  min_z_idx : nat; max_z_idx : nat
}.

(** [np.min] and [np.max] of a vector of indices; both raise on an empty
    vector. *)
Definition np_min (l : list nat) : result nat :=
  match l with
  | [] => Raise ValueError
  | x :: l' => Ok (fold_left Nat.min l' x)
  end.

Definition np_max (l : list nat) : result nat :=
  match l with
  | [] => Raise ValueError
  | x :: l' => Ok (fold_left Nat.max l' x)
  end.

(** [np.max] of a vector of floats. *)
Definition np_maxQ (l : list Q) : result Q :=
  match l with
  | [] => Raise ValueError
  | x :: l' => Ok (fold_left (fun m y => if Qle_bool m y then y else m) l' x)
  end.

Definition Qlt_bool (x y : Q) : bool := negb (Qle_bool y x).

(** One entry of [rel_p > tol], for [rel_p = x / m].  When the maximum [m]
    is zero the quotient is nan (or -inf), and the comparison is false. *)
Definition rel_gt (x m tol : Q) : bool :=
  if Qeq_bool m 0 then false else Qlt_bool tol (x / m).

(** [a[min_x:max_x, min_y:max_y, min_z:max_z]] selects index [(i, j, k)]. *)
Definition in_slice (b : box) (i j k : nat) : bool :=
  (min_x_idx b <=? i) && (i <? max_x_idx b) &&
  (min_y_idx b <=? j) && (j <? max_y_idx b) &&
  (min_z_idx b <=? k) && (k <? max_z_idx b).

(** [dst[slice] = src[slice]] for two arrays of one shape. *)
Definition slice_assign (dst src : ndarray) (b : box) : ndarray :=
  mkArr (shape dst)
    (fun i j k => if in_slice b i j k then data src i j k else data dst i j k).

(** The values pickled by [convergence_domain_size]. *)
Record pickled : Type := mkPickled {
  line_harmonic : list (list C);
  xMinVals : list Q;
  xMaxVals : list Q;
  yMinVals : list Q;
  yMaxVals : list Q
}.

Definition empty_pickled : pickled := mkPickled [] [] [] [] [].

Section Study.
(** [np.abs] on a [complex128]. *)
Variable Cabs : C -> Q.
(** [10**np.array([-0.5, -0.75, ..., -4])]. *)
Variable TOL : list Q.
Local Open Scope result_scope.
Local Open Scope heap_scope.

(** [np.argwhere(rel_p > tol)] with
    [rel_p = np.abs(f_rhs)/np.max(np.abs(f_rhs))]. *)
Definition where_bigger (f_rhs : ndarray) (tol : Q) : result (list index3) :=
  let abs_f := fun x => Cabs (at_index f_rhs x) in
  let? m := np_maxQ (map abs_f (indices (shape f_rhs))) in
  Ok (List.filter (fun x => rel_gt (abs_f x) m tol) (indices (shape f_rhs))).

(** Lines 172-179. *)
Definition bounding_box (f_rhs : ndarray) (tol : Q) : result box :=
  let? w := where_bigger f_rhs tol in
  let? min_x := np_min (map (fun x => x.1.1) w) in
  let? max_x := np_max (map (fun x => x.1.1) w) in
  let? min_y := np_min (map (fun x => x.1.2) w) in
  let? max_y := np_max (map (fun x => x.1.2) w) in
  let? min_z := np_min (map (fun x => x.2) w) in
  let? max_z := np_max (map (fun x => x.2) w) in
  Ok (mkBox min_x max_x min_y max_y min_z max_z).

(** [restrict_domain(f_rhs, tol, r)]; [f_rhs] has the shape [(L, M, N)] of
    [r] at its only call site. *)
Definition restrict_domain (f_rhs : loc) (tol : Q) (r : grid)
  : M (Q * Q * Q * Q * loc) :=
  f <- load f_rhs ;;
  b <- lift (bounding_box f tol) ;;
  let xMin := coords r (min_x_idx b) 0 0 0 in
  let xMax := coords r (max_x_idx b) 0 0 0 in
  let yMin := coords r 0 (min_y_idx b) 0 1 in
  let yMax := coords r 0 (max_y_idx b) 0 1 in
  P_trim <- alloc (zeros (gshape r)) ;;
  t <- load P_trim ;;
  _ <- store P_trim (slice_assign t f b) ;;
  mret (xMin, xMax, yMin, yMax, P_trim).

(** One turn of the loop over [TOL], lines 206-222; [acc] holds the rows
    filled so far. *)
Definition study_turn (f_rhs : loc) (mvp : ndarray -> ndarray) (r : grid)
    (tol : Q) (acc : pickled) : M pickled :=
  res <- restrict_domain f_rhs tol r ;;
  let '(xMin, xMax, yMin, yMax, P_trim) := res in
  t <- load P_trim ;;
  xInVec <- alloc t ;;
  v <- load xInVec ;;
  xOut <- alloc (mvp v) ;;
  field <- load xOut ;;
  let '(L, M, N) := gshape r in
  let ny_centre := (M / 2)%nat in
  let nz_centre := (N / 2)%nat in
  let line := map (fun i => data field i ny_centre nz_centre) (seq 0 L) in
  mret (mkPickled (line_harmonic acc ++ [line])
                  (xMinVals acc ++ [xMin]) (xMaxVals acc ++ [xMax])
                  (yMinVals acc ++ [yMin]) (yMaxVals acc ++ [yMax])).

Fixpoint study_loop (f_rhs : loc) (mvp : ndarray -> ndarray) (r : grid)
    (tols : list Q) (acc : pickled) : M pickled :=
  match tols with
  | [] => mret acc
  | tol :: tols' =>
      acc' <- study_turn f_rhs mvp r tol acc ;;
      study_loop f_rhs mvp r tols' acc'
  end.

(** [convergence_domain_size(f_rhs, mvp, circ_op, r, L, M, N, harm, roc, k1)]:
    the arrays it pickles; it returns their component [xMinVals].  Writing
    the pickle file is left out. *)
Definition convergence_domain_size (f_rhs : loc) (mvp : ndarray -> ndarray)
    (r : grid) : M pickled :=
  study_loop f_rhs mvp r TOL empty_pickled.

(** *** The loop over the harmonics, lines 234-279 *)

(** [x -> mvp_volume_potential(x, circ_op, idx, Mr)] between arrays of shape
    [(L, M, N)], with [circ_op] assembled for harmonic [i_harm]. *)
Variable mvp_volume_potential : nat -> ndarray -> ndarray.
Variable r : grid.
Variables beta omega rho c : Q.

(** The names of the script that refer to arrays: [P[i]] is a view of plane
    [i] of the array [P]. *)
Record env : Type := mkEnv {
  xIn : option loc;
  xInVec : option loc;
  P : list loc
}.

(** Lines 246-262: the ladder, then [xInVec = xIn.reshape(...)], a copy of
    [xIn] in Fortran order. *)
Definition source_stage (i_harm : nat) (e : env) : M env :=
  Ps <- load_all (P e) ;;
  xIn' <- match xIn_ladder beta omega rho c i_harm Ps with
          | Assigned x => l <- alloc x ;; mret (Some l)
          | Fallthrough => mret (xIn e)
          | Raised ex => fun _ => Raise ex
          end ;;
  x <- lookup_name xIn' ;;
  v <- load x ;;
  xInVec' <- alloc v ;;
  mret (mkEnv xIn' (Some xInVec') (P e)).

(** Lines 275-277: [P[i_harm] = mvp(xInVec).reshape(L, M, N, order='F')]. *)
Definition solve_stage (i_harm : nat) (e : env) : M env :=
  xv <- lookup_name (xInVec e) ;;
  v <- load xv ;;
  p <- lift (getitem (P e) i_harm) ;;
  _ <- store p (mvp_volume_potential i_harm v) ;;
  mret e.

(** One turn of the loop over [i_harm]. *)
Definition harmonic_step (i_harm : nat) (e : env) : M env :=
  e1 <- source_stage i_harm e ;;
  x <- lookup_name (xIn e1) ;;
  _ <- convergence_domain_size x (mvp_volume_potential i_harm) r ;;
  solve_stage i_harm e1.

(** The same turn with line 272, the call of the study, left out. *)
Definition harmonic_step_without_study (i_harm : nat) (e : env) : M env :=
  e1 <- source_stage i_harm e ;;
  solve_stage i_harm e1.

Fixpoint harmonic_loop (orders : list nat) (e : env) : M env :=
  match orders with
  | [] => mret e
  | i_harm :: orders' =>
      e' <- harmonic_step i_harm e ;;
      harmonic_loop orders' e'
  end.

(** [for i_harm in range(1, n_harm)]. *)
Definition cascade (n_harm : nat) (e : env) : M env :=
  harmonic_loop (seq 1 (n_harm - 1)) e.
End Study.

End Convergence.

(** ** demo/hifu/transducer_nonlinear_homogeneous_interpolation.py *)

Module Interpolation.

Section Attenuation.
(** Python's [**] on floats. *)
Variable fpow : Q -> Q -> Q.

Definition attenuation (f alpha0 eta : Q) : Q :=
  let alpha := (alpha0 * fpow (f * 1e-6) eta)%Q in
  alpha.
End Attenuation.

(** Lines 175-176; [&] binds tighter than [==] in Python. *)
Definition is_power_of_two (n : Z) : bool :=
  negb (n =? 0)%Z && (Z.land n (n - 1) =? 0)%Z.

(** Lines 183 and 192: the guards around the mesh refinement. *)
Definition refines (i_harm : nat) : bool :=
  negb (i_harm =? 1) && is_power_of_two (Z.of_nat i_harm).

(** *** The refinement block, lines 194-214 *)

Record mesh : Type := mkMesh {
  r : grid;
  dx : Q; wx : Q; wy : Q; wz : Q
}.

(** [g[-1, 0, 0, 0]] *)
Definition last_x (g : grid) : result Q :=
  let '(L, M, N) := gshape g in
  if (L =? 0) || (M =? 0) || (N =? 0) then Raise IndexError
  else Ok (coords g (L - 1) 0 0 0).

Section Refine.
(** [vines.geometry.geometry.generatedomain], returning [r] with its
    shape [(L, M, N)]. *)
Variable generatedomain : Q -> Q -> Q -> Q -> grid.
Local Open Scope result_scope.
Local Open Scope Q_scope.

Definition refine_mesh (m : mesh) : result mesh :=
  let dx2 := dx m / 2 in
  let wx2 := wx m / 2 in
  let wy2 := wy m / 2 in
  let wz2 := wy2 in
  let r2 := generatedomain dx2 wx2 wy2 wz2 in
  (* Adjust r2 so that the far ends of r-dx and r2 coincide *)
  let? r2_far := last_x r2 in
  let? r_far := last_x (r m) in
  let r2' :=
    mkGrid (gshape r2)
      (fun i j k d =>
         if (d =? 0)%nat
         then coords r2 i j k 0 - r2_far + r_far + - dx m / 2 - dx2 / 2
         else coords r2 i j k d) in
  Ok (mkMesh r2' dx2 wx2 wy2 wz2).
End Refine.

(** *** The loop over the harmonics, lines 179-313 *)

Section Cascade.
(** [F] is the type of the fields and [G] the type of the meshes. *)
Context {F G : Type} `{ArrayOps F}.
(** The refinement block. *)
Variable refine : G -> result G.
(** [x -> mvp_volume_potential(x, circ_op, idx, Mr)] for harmonic [i_harm],
    with [circ_op] assembled on the current mesh. *)
Variable mvp_volume_potential : nat -> G -> F -> F.
(** Calling a [RegularGridInterpolator((X, Y, Z), values)], here the pair
    of the mesh of the axes and the values, on the points of a mesh. *)
Variable interpolate : G * F -> G -> result F.
Variables beta omega rho c : Q.
Local Open Scope array_scope.
Local Open Scope result_scope.

Definition name {A : Type} (x : option A) : result A :=
  match x with
  | Some a => Ok a
  | None => Raise NameError
  end.

(** Lines 237-277; [P[2]**2] is the elementwise square. *)
Definition xIn_ladder (i_harm : nat) (P : list F)
    (interp_funs : list (G * F)) (points2 : option G) : ladder F :=
  match i_harm with
  | 1 =>
      ladder_of (let? P0 := getitem P 0 in
                 Ok (coupling (-2) beta omega rho c $* P0 .* P0))
  | 2 =>
      ladder_of (let? f0 := getitem interp_funs 0 in
                 let? pts := name points2 in
                 let? P1_interp := interpolate f0 pts in
                 let? f1 := getitem interp_funs 1 in
                 let? P2_interp := interpolate f1 pts in
                 Ok (coupling (-9) beta omega rho c $*
                       P1_interp .* P2_interp))
  | 3 =>
      ladder_of (let? f0 := getitem interp_funs 0 in
                 let? pts := name points2 in
                 let? P1 := interpolate f0 pts in
                 let? f1 := getitem interp_funs 1 in
                 let? P2 := interpolate f1 pts in
                 let? f2 := getitem interp_funs 2 in
                 let? P3 := interpolate f2 pts in
                 Ok (coupling (-8) beta omega rho c $*
                       (P2 .* P2 .+ 2 $* P1 .* P3)))
  | 4 =>
      ladder_of (let? P0 := getitem P 0 in
                 let? P3 := getitem P 3 in
                 let? P1 := getitem P 1 in
                 let? P2 := getitem P 2 in
                 Ok (coupling (-25) beta omega rho c $*
                       (P0 .* P3 .+ P1 .* P2)))
  | 5 =>
      ladder_of (let? P0 := getitem P 0 in
                 let? P4 := getitem P 4 in
                 let? P1 := getitem P 1 in
                 let? P3 := getitem P 3 in
                 let? P2 := getitem P 2 in
                 Ok (coupling (-18) beta omega rho c $*
                       (2 $* P0 .* P4 .+ 2 $* P1 .* P3 .+ P2 .* P2)))
  | 6 =>
      ladder_of (let? P0 := getitem P 0 in
                 let? P5 := getitem P 5 in
                 let? P1 := getitem P 1 in
                 let? P4 := getitem P 4 in
                 let? P2 := getitem P 2 in
                 let? P3 := getitem P 3 in
                 Ok (coupling (-49) beta omega rho c $*
                       (P0 .* P5 .+ P1 .* P4 .+ P2 .* P3)))
  | _ => Fallthrough
  end.

(** The names of the script the loop reads and rebinds: the current mesh
    ([r], with [L, M, N], [X, Y, Z], [dx], ...), [points2], the list [P] of
    the fields, the list of their interpolators and [xIn]. *)
Record state : Type := mkState {
  cur : G;
  points2 : option G;
  P : list F;
  interp_funs : list (G * F);
  xIn : option F
}.

(** Lines 183-214. *)
Definition refinement_stage (i_harm : nat) (s : state) : result state :=
  if refines i_harm then
    let? r2 := refine (cur s) in
    Ok (mkState r2 (Some r2) (P s) (interp_funs s) (xIn s))
  else Ok s.

(** Lines 237-277. *)
Definition source_stage (i_harm : nat) (s : state) : result state :=
  let? xIn' :=
    match xIn_ladder i_harm (P s) (interp_funs s) (points2 s) with
    | Assigned x => Ok (Some x)
    | Fallthrough => Ok (xIn s)
    | Raised e => Raise e
    end in
  Ok (mkState (cur s) (points2 s) (P s) (interp_funs s) xIn').

(** Lines 279-302. *)
Definition solve_stage (i_harm : nat) (s : state) : result state :=
  let? x := name (xIn s) in
  let P' := P s ++ [mvp_volume_potential i_harm (cur s) x] in
  let? Pi := getitem P' i_harm in
  Ok (mkState (cur s) (points2 s) P' (interp_funs s ++ [(cur s, Pi)])
              (xIn s)).

Definition harmonic_step (i_harm : nat) (s : state) : result state :=
  let? s1 := refinement_stage i_harm s in
  let? s2 := source_stage i_harm s1 in
  solve_stage i_harm s2.

Fixpoint harmonic_loop (orders : list nat) (s : state) : result state :=
  match orders with
  | [] => Ok s
  | i_harm :: orders' =>
      let? s' := harmonic_step i_harm s in
      harmonic_loop orders' s'
  end.

(** [for i_harm in range(1, n_harm)]. *)
Definition cascade (n_harm : nat) (s : state) : result state :=
  harmonic_loop (seq 1 (n_harm - 1)) s.

(** The state before the loop, lines 128-143: the incident field [p] on the
    first mesh. *)
Definition initial (r0 : G) (p : F) : state :=
  mkState r0 None [p] [(r0, p)] None.
End Cascade.

(** *** Which mesh a field was sampled on

    Reading the loop with a field replaced by the list of the meshes, counted
    from the first one, that its values were sampled on: a product or a sum
    of two arrays was sampled on the meshes of both, the volume potential
    gives a field on the current mesh, and an interpolator gives a field on
    the mesh of the points it is called on. *)

Definition sampled_on : Type := list nat.

#[export] Instance sampled_on_ops : ArrayOps sampled_on := {|
  amul a b := a ++ b;
  aadd a b := a ++ b;
  ascale _ a := a
|}.

Definition next_mesh (g : nat) : result nat := Ok (S g).
Definition mvp_mesh (i_harm : nat) (g : nat) (x : sampled_on) : sampled_on := [g].
Definition interpolate_mesh (f : nat * sampled_on) (pts : nat)
  : result sampled_on := Ok [pts].

Definition mesh_cascade (n_harm : nat) : result (@state sampled_on nat) :=
  cascade next_mesh mvp_mesh interpolate_mesh 1 1 1 1 n_harm (initial 0 [0]).

End Interpolation.

(** ** The specification's wording

    The definitions of this module follow the words of the specification,
    not the code; the theorems below compare them with the code. *)

Module Spec.

(** The unordered pairs [(i, j)] of prior orders with [i + j = n - 1]. *)
Definition pairs (n : nat) : list (nat * nat) :=
  List.filter (fun x => x.1 <=? x.2) (map (fun i => (i, n - 1 - i)) (seq 0 n)).

(** 1 if [i == j], 2 otherwise. *)
Definition multiplicity (i j : nat) : Q := if i =? j then 1%Q else 2%Q.

(** The coupling weight [w(n) = (n+1)^2]. *)
Definition w (n : nat) : Q := (inject_Z (Z.of_nat (n + 1)) ^ 2)%Q.

(** The sum over the pairs of [multiplicity * P_i * P_j], at one voxel. *)
Definition quadratic_sum (n : nat) (p : nat -> C) : C :=
  fold_right Cadd Czero
    (map (fun x => Cscale (multiplicity x.1 x.2) (Cmul (p x.1) (p x.2)))
         (pairs n)).

(** The source term at one voxel, with coupling weight [weight]:
    [-beta*omega^2/(rho*c^4)] times the weight times the sum. *)
Definition source_term (weight : Q) (n : nat) (beta omega rho c : Q)
    (p : nat -> C) : C :=
  Cscale (- (beta * omega ^ 2 / (rho * c ^ 4)) * weight)%Q (quadratic_sum n p).

(** [n] is one past a power of two. *)
Definition one_past_power_of_two (n : nat) : Prop :=
  exists k : nat, n = 2 ^ k + 1.

(** The volume of a bounding box, in voxels, with its maximal indices
    counted in, and the volume of the slice
    [min_x:max_x, min_y:max_y, min_z:max_z] that the code retains. *)
Definition box_volume (b : Convergence.box) : nat :=
  let dx := Convergence.max_x_idx b - Convergence.min_x_idx b in
  let dy := Convergence.max_y_idx b - Convergence.min_y_idx b in
  let dz := Convergence.max_z_idx b - Convergence.min_z_idx b in
  (dx + 1) * (dy + 1) * (dz + 1).

Definition slice_volume (b : Convergence.box) : nat :=
  let dx := Convergence.max_x_idx b - Convergence.min_x_idx b in
  let dy := Convergence.max_y_idx b - Convergence.min_y_idx b in
  let dz := Convergence.max_z_idx b - Convergence.min_z_idx b in
  dx * dy * dz.

End Spec.

(** ** Concrete inputs used in the examples *)

Module Demo.

(** A constant real field on [L * M * N] voxels. *)
Definition const (s : shape3) (x : Q) : ndarray := mkArr s (fun _ _ _ => RtoC x).

(** A regular lattice of voxel centres. *)
Definition lattice (s : shape3) (dx : Q) : grid :=
  mkGrid s
    (fun i j k d =>
       match d with
       | 0%nat => dx / 2 + inject_Z (Z.of_nat i) * dx
       | 1%nat => dx / 2 + inject_Z (Z.of_nat j) * dx
       | _ => dx / 2 + inject_Z (Z.of_nat k) * dx
       end)%Q.

Definition generatedomain (dx wx wy wz : Q) : grid := lattice (4, 2, 2) dx.

(** The modulus of a complex number whose imaginary part is zero. *)
Definition Cabs (z : C) : Q := Qabs (re z).

(** A real field on [2 * 2 * 2] voxels that grows with the indices:
    [1 + i + 2 j + 4 k] at voxel [(i, j, k)]. *)
Definition ramp : ndarray :=
  mkArr (2, 2, 2)
    (fun i j k => RtoC (inject_Z (Z.of_nat (1 + i + 2 * j + 4 * k)))).

Definition mesh0 : Interpolation.mesh :=
  Interpolation.mkMesh (generatedomain 0.1 0.4 0.2 0.2) 0.1 0.4 0.2 0.2.

(** A stand-in for the volume potential: half the source. *)
Definition mvp (i_harm : nat) (x : ndarray) : ndarray := ascale (1 # 2) x.

(** Two tolerances of the study. *)
Definition TOL : list Q := [1 # 2; 1 # 4]%Q.

(** The store and the names before the loop, lines 146-147: the planes of
    [P = np.zeros((n_harm, L, M, N))], the first one holding the incident
    field [p]. *)
Definition store0 (n_harm : nat) (p : ndarray) : list ndarray :=
  p :: repeat (zeros (shape p)) (n_harm - 1).

Definition env0 (n_harm : nat) : Convergence.env :=
  Convergence.mkEnv None None (seq 0 n_harm).

(** An interpolator between equal meshes: the values themselves. *)
Definition interpolate (f : nat * ndarray) (pts : nat) : result ndarray :=
  Ok f.2.

End Demo.

(** ** The centre line of the two scripts *)

Module Axis.

(** [np.round]: the nearest integer, a half going to the even one. *)
Definition np_round (q : Q) : Z :=
  let f := Qfloor q in
  let d := (q - inject_Z f)%Q in
  if Convergence.Qlt_bool d (1 # 2) then f
  else if Convergence.Qlt_bool (1 # 2) d then (f + 1)%Z
  else if Z.even f then f else (f + 1)%Z.

(** Interpolation script, lines 166-167 and 307-308:
    [np.int(np.round(M/2)-1)], with the true division of Python 3. *)
Definition ny_centre (M : nat) : Z :=
  (np_round (inject_Z (Z.of_nat M) / 2) - 1)%Z.

(** Domain-convergence script, lines 219-220: [np.int(np.floor(M / 2))]. *)
Definition ny_centre_floor (M : nat) : Z :=
  Qfloor (inject_Z (Z.of_nat M) / 2).

(** The position that the index [c] selects along an axis of length [M]: a
    negative index counts from the end, an index outside [-M, M) raises. *)
Definition axis_index (M : nat) (c : Z) : result nat :=
  if ((0 <=? c) && (c <? Z.of_nat M))%Z then Ok (Z.to_nat c)
  else if ((- Z.of_nat M <=? c) && (c <? 0))%Z
       then Ok (Z.to_nat (c + Z.of_nat M))
       else Raise IndexError.

End Axis.

(** ** Notions used to state the further properties

    These definitions name values that the scripts compute in passing; the
    theorems of the last part relate them to the code. *)

Module Derived.

(** The array that [restrict_domain] builds from the source [f] and the
    box [b]: zeros of the shape of the grid, with the slice copied in. *)
Definition trimmed (r : grid) (f : ndarray) (b : Convergence.box) : ndarray :=
  Convergence.slice_assign (zeros (gshape r)) f b.

(** [field[:, ny_centre, nz_centre]] with the centres of
    [convergence_domain_size]. *)
Definition axis_line (r : grid) (field : ndarray) : list C :=
  let '(L, M, N) := gshape r in
  map (fun i => data field i (M / 2) (N / 2)) (seq 0 L).

(** The boxes of a source at the tolerances of a list, up to the first
    tolerance that has none. *)
Fixpoint boxes (Cabs : C -> Q) (f : ndarray) (tols : list Q)
    : result (list Convergence.box) :=
  match tols with
  | [] => Ok []
  | tol :: tols' =>
      rbind (Convergence.bounding_box Cabs f tol) (fun b =>
      rbind (boxes Cabs f tols') (fun bs => Ok (b :: bs)))
  end.

(** The objects one turn of the study leaves in the store. *)
Definition turn_objects (r : grid) (mvp : ndarray -> ndarray) (f : ndarray)
    (b : Convergence.box) : list ndarray :=
  [trimmed r f b; trimmed r f b; mvp (trimmed r f b)].

(** The arrays the study pickles, from the boxes. *)
Definition study_record (r : grid) (mvp : ndarray -> ndarray) (f : ndarray)
    (bs : list Convergence.box) : Convergence.pickled :=
  Convergence.mkPickled
    (map (fun b => axis_line r (mvp (trimmed r f b))) bs)
    (map (fun b => coords r (Convergence.min_x_idx b) 0 0 0) bs)
    (map (fun b => coords r (Convergence.max_x_idx b) 0 0 0) bs)
    (map (fun b => coords r 0 (Convergence.min_y_idx b) 0 1) bs)
    (map (fun b => coords r 0 (Convergence.max_y_idx b) 0 1) bs).

(** The store [h] holds the arrays [vs] at the locations [ls], one by
    one. *)
Definition holds (h : heap) (ls : list loc) (vs : list ndarray) : Prop :=
  Forall2 (fun l a => h !! l = Some a) ls vs.

(** No axis of the shape is empty. *)
Definition nonempty (s : shape3) : Prop := 0 < s.1.1 /\ 0 < s.1.2 /\ 0 < s.2.

(** [n] successive refinements of a mesh. *)
Definition refine_times (generatedomain : Q -> Q -> Q -> Q -> grid)
    (n : nat) (m : Interpolation.mesh) : result Interpolation.mesh :=
  Nat.iter n (fun rm => rbind rm (Interpolation.refine_mesh generatedomain))
    (Ok m).

(** What holds in the interpolation script between two turns of its loop,
    after the orders 1 to [k], when it started on the mesh [r0] and [rf] is
    the refinement: the current mesh is [r0] refined [log2 k] times, there
    are [k + 1] fields, interpolator [i] holds field [i], and [points2] and
    [xIn] are bound from the orders 2 and 1 on. *)
Definition between_turns {F G : Type} (rf : G -> G) (r0 : G) (k : nat)
    (s : @Interpolation.state F G) : Prop :=
  Interpolation.cur s = Nat.iter (Nat.log2 k) rf r0 /\
  length (Interpolation.P s) = S k /\
  map snd (Interpolation.interp_funs s) = Interpolation.P s /\
  (2 <= k -> Interpolation.points2 s = Some (Interpolation.cur s)) /\
  (1 <= k -> exists x, Interpolation.xIn s = Some x).

End Derived.

(** * Properties *)

(** ** Attenuation *)

(** C9: for every frequency [f] and parameters [alpha0], [eta], the
    attenuation of the homogeneous-interpolation script is 8.686 times the
    attenuation of the domain-convergence script, which divides
    [alpha0 * (f * 1e-6)**eta] by 8.686. *)
Theorem attenuation_nepers_factor (fpow : Q -> Q -> Q) (f alpha0 eta : Q) :
  (Interpolation.attenuation fpow f alpha0 eta ==
   8.686 * Convergence.attenuation fpow f alpha0 eta)%Q.
Proof.
  unfold Interpolation.attenuation, Convergence.attenuation.
  cbv zeta. field.
Qed.

(** ** The source term *)

Section SourceTermFacts.
Local Open Scope Q_scope.

Lemma coupling_unit (n : Q) : coupling n 1 1 1 1 == n.
Proof. unfold coupling. field. Qed.

Lemma C_equiv_intro (a b : C) : re a == re b -> im a == im b -> a ≡ b.
Proof. intros; split; assumption. Qed.

End SourceTermFacts.

Ltac voxelwise :=
  split; [reflexivity | intros ? ? ?; apply C_equiv_intro; cbn; unfold coupling; field].

(** C1: for unit [beta], [omega], [rho], [c], the scalar in front of the
    quadratic source term is -2 at order 1 (term [P0*P0]), -9 at order 2
    (term [P0*P1]), -8 at order 3 (term [P1*P1 + 2*P0*P2], the cross term
    counted twice) and -25 at order 4 (term [P0*P3 + P1*P2]), in both
    scripts; in the interpolation script the fields of orders 2 and 3 are the
    interpolated ones. *)
Theorem coupling_coefficients_orders_1_to_4
    {G : Type} (interpolate : G * ndarray -> G -> result ndarray)
    (P0 P1 P2 P3 : ndarray) (rest : list ndarray)
    (f0 f1 f2 : G * ndarray) (funs : list (G * ndarray)) (pts : G)
    (I0 I1 I2 : ndarray)
    (H0 : interpolate f0 pts = Ok I0)
    (H1 : interpolate f1 pts = Ok I1)
    (H2 : interpolate f2 pts = Ok I2) :
  let P := P0 :: P1 :: P2 :: P3 :: rest in
  let interp_funs := f0 :: f1 :: f2 :: funs in
  let conv := Convergence.xIn_ladder 1 1 1 1 in
  let interp := fun i =>
    Interpolation.xIn_ladder interpolate 1 1 1 1 i P interp_funs (Some pts) in
  ((exists x, conv 1 P = Assigned x /\ x ≡ (-2 $* (P0 .* P0))%arr) /\
   (exists x, conv 2 P = Assigned x /\ x ≡ (-9 $* (P0 .* P1))%arr) /\
   (exists x, conv 3 P = Assigned x /\
              x ≡ (-8 $* (P1 .* P1 .+ 2 $* (P0 .* P2)))%arr) /\
   (exists x, conv 4 P = Assigned x /\
              x ≡ (-25 $* (P0 .* P3 .+ P1 .* P2))%arr)) /\
  ((exists x, interp 1 = Assigned x /\ x ≡ (-2 $* (P0 .* P0))%arr) /\
   (exists x, interp 2 = Assigned x /\ x ≡ (-9 $* (I0 .* I1))%arr) /\
   (exists x, interp 3 = Assigned x /\
              x ≡ (-8 $* (I1 .* I1 .+ 2 $* (I0 .* I2)))%arr) /\
   (exists x, interp 4 = Assigned x /\
              x ≡ (-25 $* (P0 .* P3 .+ P1 .* P2))%arr)).
Proof.
  intros P interp_funs conv interp.
  split.
  - repeat split; (eexists; split; [reflexivity | voxelwise]).
  - subst interp. cbn. rewrite H0, H1, H2. cbn.
    repeat split; (eexists; split; [reflexivity | voxelwise]).
Qed.

(** The coefficients on constant fields over one voxel, with an
    interpolator that returns the values it holds. *)
Lemma coupling_coefficients_orders_1_to_4_witness :
  let p := fun x => Demo.const (1, 1, 1) x in
  let P := [p 1; p 2; p 3; p 4]%Q in
  let funs := [(0%nat, p 1); (0%nat, p 2); (0%nat, p 3)]%Q in
  Demo.interpolate (0, p 1%Q) 1 = Ok (p 1%Q) /\
  (exists x,
     Interpolation.xIn_ladder Demo.interpolate 1 1 1 1 3 P funs (Some 1)
       = Assigned x /\
     x ≡ (-8 $* (p 2 .* p 2 .+ 2 $* (p 1 .* p 3)))%arr%Q) /\
  (exists x,
     Convergence.xIn_ladder 1 1 1 1 4 P = Assigned x /\
     x ≡ (-25 $* (p 1 .* p 4 .+ p 2 .* p 3))%arr%Q).
Proof.
  intros p P funs.
  pose proof (coupling_coefficients_orders_1_to_4 Demo.interpolate
                (p 1%Q) (p 2%Q) (p 3%Q) (p 4%Q) []
                (0, p 1%Q) (0, p 2%Q) (0, p 3%Q) [] 1
                (p 1%Q) (p 2%Q) (p 3%Q) eq_refl eq_refl eq_refl) as T.
  cbv zeta in T.
  destruct T as [(_ & _ & _ & T4) (_ & _ & T3 & _)].
  split; [reflexivity | split; [exact T3 | exact T4]].
Defined.

(** With the division by [rho * c^4] kept as it stands, the voxel identities
    are identities of the ring of rationals. *)
Ltac voxel_ring :=
  unfold coupling, Spec.source_term, Qdiv;
  match goal with
  | |- context [Qinv (?rho * ?c ^ 4)] =>
      generalize (Qinv (rho * c ^ 4)); intro
  end;
  apply C_equiv_intro; cbn;
  cbv [inject_Z Z.of_nat Pos.of_succ_nat Pos.succ]; ring.

(** C2, as the code has it: for every supported order [n] the source term is
    [-beta*omega^2/(rho*c^4)] times [(n+1)^2 / 2] times the sum, over the
    unordered pairs [(i, j)] of prior orders with [i + j = n - 1], of the
    multiplicity (1 if [i == j], 2 otherwise) times [P_i * P_j].  The
    domain-convergence script supports the orders 1 to 4, the interpolation
    script the orders 1 to 6 and takes the interpolated fields at the orders
    2 and 3. *)
Theorem source_term_pairs_half_weight
    {G : Type} (interpolate : G * ndarray -> G -> result ndarray)
    (beta omega rho c : Q)
    (P0 P1 P2 P3 P4 P5 : ndarray) (rest : list ndarray)
    (f0 f1 f2 : G * ndarray) (funs : list (G * ndarray)) (pts : G)
    (I0 I1 I2 : ndarray)
    (H0 : interpolate f0 pts = Ok I0)
    (H1 : interpolate f1 pts = Ok I1)
    (H2 : interpolate f2 pts = Ok I2)
    (n : nat) (Hn : 1 <= n <= 6) :
  let P := P0 :: P1 :: P2 :: P3 :: P4 :: P5 :: rest in
  let interp_funs := f0 :: f1 :: f2 :: funs in
  let operand := fun (l : list ndarray) i j k m => data (nth m l P0) i j k in
  (n <= 4 ->
   exists x,
     Convergence.xIn_ladder beta omega rho c n P = Assigned x /\
     forall i j k,
       data x i j k ≡
       Spec.source_term (Spec.w n / 2) n beta omega rho c (operand P i j k)) /\
  (exists x,
     Interpolation.xIn_ladder interpolate beta omega rho c n P interp_funs
       (Some pts) = Assigned x /\
     forall i j k,
       data x i j k ≡
       Spec.source_term (Spec.w n / 2) n beta omega rho c
         (operand (if (n =? 2) || (n =? 3) then [I0; I1; I2] else P) i j k)).
Proof.
  intros P interp_funs operand.
  assert (Hcases : n = 1 \/ n = 2 \/ n = 3 \/ n = 4 \/ n = 5 \/ n = 6) by lia.
  split.
  - intros Hle.
    destruct Hcases as [-> | [-> | [-> | [-> | [-> | ->]]]]]; try lia;
      (eexists; split; [reflexivity | intros i j k; subst operand; voxel_ring]).
  - destruct Hcases as [-> | [-> | [-> | [-> | [-> | ->]]]]];
      cbn; rewrite ?H0, ?H1, ?H2; cbn;
      (eexists; split; [reflexivity | intros i j k; subst operand; voxel_ring]).
Qed.

(** Order 3 for water ([beta = 3.5], [rho = 1000], [c = 1480]). *)
Lemma source_term_pairs_half_weight_witness :
  let p := fun x => Demo.const (1, 1, 1) x in
  let P := [p 1; p 2; p 3; p 4; p 5; p 6]%Q in
  (1 <= 3 <= 6) /\
  Demo.interpolate (0, p 2%Q) 1 = Ok (p 2%Q) /\
  (exists x,
     Convergence.xIn_ladder 3.5 2 1000 1480 3 P = Assigned x /\
     forall i j k,
       data x i j k ≡
       Spec.source_term (Spec.w 3 / 2) 3 3.5 2 1000 1480
         (fun m => data (nth m P (p 1%Q)) i j k)).
Proof.
  intros p P.
  split; [lia | split; [reflexivity |]].
  refine (proj1 (source_term_pairs_half_weight Demo.interpolate
                   3.5 2 1000 1480
                   (p 1%Q) (p 2%Q) (p 3%Q) (p 4%Q) (p 5%Q) (p 6%Q) []
                   (0, p 1%Q) (0, p 2%Q) (0, p 3%Q) [] 1
                   (p 1%Q) (p 2%Q) (p 3%Q) eq_refl eq_refl eq_refl
                   3 _) _); lia.
Defined.

(** C2, as the specification words it, fails: with the full weight
    [(n+1)^2] the formula gives [-4 * P0 * P0] at order 1 for unit
    parameters, where the code computes [-2 * P0 * P0]. *)
Lemma source_term_full_weight_counterexample :
  let P0 := Demo.const (1, 1, 1) 1 in
  exists x,
    Convergence.xIn_ladder 1 1 1 1 1 [P0] = Assigned x /\
    data x 0 0 0 ≡ RtoC (-2) /\
    Spec.source_term (Spec.w 1) 1 1 1 1 1 (fun m => data (nth m [P0] P0) 0 0 0)
      ≡ RtoC (-4) /\
    ~ (data x 0 0 0 ≡
       Spec.source_term (Spec.w 1) 1 1 1 1 1
         (fun m => data (nth m [P0] P0) 0 0 0)).
Proof.
  intros P0. eexists. split; [reflexivity |].
  split; [split; reflexivity |].
  split; [split; reflexivity |].
  intros [Hre _]. vm_compute in Hre. discriminate Hre.
Qed.

(** ** The refinement policy *)

Section PowerOfTwo.
Local Open Scope Z_scope.

Lemma land_pred_pow2 (k : Z) : 0 <= k -> Z.land (2 ^ k) (2 ^ k - 1) = 0.
Proof.
  intros Hk.
  replace (2 ^ k - 1) with (Z.ones k) by (rewrite Z.ones_equiv; lia).
  rewrite Z.land_ones by assumption.
  apply Z.mod_same. apply Z.pow_nonzero; lia.
Qed.

Lemma land_pred_zero_pow2 (n : Z) :
  0 < n -> Z.land n (n - 1) = 0 -> n = 2 ^ Z.log2 n.
Proof.
  intros Hpos Hland.
  destruct (Z.log2_spec n Hpos) as [Hlo Hhi].
  destruct (Z.eq_dec n (2 ^ Z.log2 n)) as [Heq | Hne]; [exact Heq | exfalso].
  assert (Hk : 0 <= Z.log2 n) by apply Z.log2_nonneg.
  assert (Hpow : 0 < 2 ^ Z.log2 n) by (apply Z.pow_pos_nonneg; lia).
  assert (Hlog : Z.log2 (n - 1) = Z.log2 n).
  { apply Z.log2_unique; [assumption | split; lia]. }
  assert (Hb1 : Z.testbit n (Z.log2 n) = true) by (apply Z.bit_log2; lia).
  assert (Hb2 : Z.testbit (n - 1) (Z.log2 n) = true).
  { rewrite <- Hlog. apply Z.bit_log2. lia. }
  assert (Hb : Z.testbit (Z.land n (n - 1)) (Z.log2 n) = true).
  { rewrite Z.land_spec, Hb1, Hb2. reflexivity. }
  rewrite Hland, Z.bits_0 in Hb. discriminate Hb.
Qed.

Lemma is_power_of_two_spec (n : Z) :
  0 <= n ->
  Interpolation.is_power_of_two n = true <-> exists k, 0 <= k /\ n = 2 ^ k.
Proof.
  intros Hn. unfold Interpolation.is_power_of_two.
  rewrite andb_true_iff, negb_true_iff, Z.eqb_neq, Z.eqb_eq.
  split.
  - intros [Hne Hland]. exists (Z.log2 n).
    split; [apply Z.log2_nonneg | apply land_pred_zero_pow2; [lia | exact Hland]].
  - intros (k & Hk & ->). split.
    + apply Z.pow_nonzero; lia.
    + apply land_pred_pow2; exact Hk.
Qed.
End PowerOfTwo.

(** C3, as the code has it: a refinement is triggered exactly at the orders
    [n] that are themselves a power of two greater than 1 (2, 4, 8, ...),
    which are the turns that compute harmonic number [n + 1], one past a
    power of two; order 1 never refines. *)
Theorem refinement_at_powers_of_two (n : nat) :
  Interpolation.refines n = true <-> exists k : nat, 1 <= k /\ n = 2 ^ k.
Proof.
  unfold Interpolation.refines.
  rewrite andb_true_iff, negb_true_iff, Nat.eqb_neq.
  rewrite is_power_of_two_spec by lia.
  split.
  - intros (Hne & k & Hk & Hpow).
    exists (Z.to_nat k).
    assert (Hn : n = 2 ^ Z.to_nat k).
    { apply Nat2Z.inj. rewrite Hpow, Nat2Z.inj_pow, Z2Nat.id by lia.
      reflexivity. }
    split; [| exact Hn].
    destruct (Z.to_nat k) as [| k']; [cbn in Hn; lia | lia].
  - intros (k & Hk & ->). split.
    + destruct k as [| k']; [lia |].
      rewrite Nat.pow_succ_r'.
      pose proof (Nat.pow_nonzero 2 k'). lia.
    + exists (Z.of_nat k). split; [lia |].
      rewrite Nat2Z.inj_pow. reflexivity.
Qed.

(** C3, as the specification words it, fails in both directions: order 4 is
    not one past a power of two and triggers a refinement, and order 3 is
    one past a power of two and triggers none.  Counting harmonic numbers
    instead ([i_harm + 1]) does not rescue it: harmonic 2 is one past a power
    of two, and the turn [i_harm = 1] that computes it never refines. *)
Lemma refinement_one_past_power_of_two_counterexample :
  (Interpolation.refines 4 = true /\ ~ Spec.one_past_power_of_two 4) /\
  (Interpolation.refines 3 = false /\ Spec.one_past_power_of_two 3) /\
  (Interpolation.refines 1 = false /\ Spec.one_past_power_of_two (1 + 1)).
Proof.
  split; [split | split; split].
  - reflexivity.
  - intros [k Hk].
    destruct k as [| [| k']]; cbn in Hk; lia.
  - reflexivity.
  - exists 1. reflexivity.
  - reflexivity.
  - exists 0. reflexivity.
Qed.

(** ** The alignment of a refined mesh *)

(** C7, as the code has it: after a refinement the spacing is halved, and
    the last [x] coordinate of the new mesh lies one and a half new spacings
    below the last [x] coordinate of the prior mesh; the far face of the new
    mesh (half a voxel beyond its last coordinate) is the far face of the
    prior mesh moved back by one prior spacing, that is by two new
    spacings. *)
Theorem refine_far_end_alignment
    (generatedomain : Q -> Q -> Q -> Q -> grid) (m m' : Interpolation.mesh)
    (Href : Interpolation.refine_mesh generatedomain m = Ok m') :
  exists far far' : Q,
    Interpolation.last_x (Interpolation.r m) = Ok far /\
    Interpolation.last_x (Interpolation.r m') = Ok far' /\
    (Interpolation.dx m' == Interpolation.dx m / 2)%Q /\
    (far' == far - (3 # 2) * Interpolation.dx m')%Q /\
    (far' + Interpolation.dx m' / 2 ==
     far + Interpolation.dx m / 2 - 2 * Interpolation.dx m')%Q.
Proof.
  unfold Interpolation.refine_mesh in Href. cbv zeta in Href.
  destruct (Interpolation.last_x (generatedomain _ _ _ _)) as [r2_far |] eqn:E2;
    [| discriminate Href].
  destruct (Interpolation.last_x (Interpolation.r m)) as [r_far |] eqn:E1;
    [| discriminate Href].
  cbn in Href. injection Href as Hm. subst m'.
  exists r_far.
  unfold Interpolation.last_x in E2.
  unfold Interpolation.last_x at 1. cbn.
  destruct (gshape (generatedomain _ _ _ _)) as [[L2 M2] N2].
  destruct ((L2 =? 0) || (M2 =? 0) || (N2 =? 0)); [discriminate E2 |].
  injection E2 as E2.
  eexists. split; [reflexivity |]. split; [reflexivity |].
  split; [reflexivity |]. rewrite E2. split; field.
Qed.

(** The alignment on a lattice of spacing 0.1. *)
Lemma refine_far_end_alignment_witness :
  exists m' far far',
    Interpolation.refine_mesh Demo.generatedomain Demo.mesh0 = Ok m' /\
    Interpolation.last_x (Interpolation.r Demo.mesh0) = Ok far /\
    Interpolation.last_x (Interpolation.r m') = Ok far' /\
    (far' == far - (3 # 2) * Interpolation.dx m')%Q.
Proof.
  eexists.
  destruct (refine_far_end_alignment Demo.generatedomain Demo.mesh0 _ eq_refl)
    as (far & far' & Hfar & Hfar' & _ & Halign & _).
  exists far, far'. repeat split; assumption.
Defined.

(** C7, as the specification words it, fails: on a mesh of spacing 0.1 whose
    last [x] coordinate is 0.35, the refined mesh has spacing 0.05 and last
    [x] coordinate 0.275; the two differ by 0.075, more than one new
    spacing, and so do the far faces (0.3 against 0.4). *)
Lemma refine_far_end_within_one_spacing_counterexample :
  exists m' far far',
    Interpolation.refine_mesh Demo.generatedomain Demo.mesh0 = Ok m' /\
    Interpolation.last_x (Interpolation.r Demo.mesh0) = Ok far /\
    Interpolation.last_x (Interpolation.r m') = Ok far' /\
    (far == 0.35 /\ far' == 0.275 /\ Interpolation.dx m' == 0.05)%Q /\
    ~ (Qabs (far' - far) <= Interpolation.dx m')%Q /\
    ~ (Qabs ((far' + Interpolation.dx m' / 2) -
             (far + Interpolation.dx Demo.mesh0 / 2))
       <= Interpolation.dx m')%Q.
Proof.
  eexists. eexists. eexists.
  split; [reflexivity |]. split; [reflexivity |]. split; [reflexivity |].
  split; [repeat split; vm_compute; reflexivity |].
  split; intros H; apply Qle_bool_iff in H; vm_compute in H; discriminate H.
Qed.

(** ** The truncation study *)

Section IndexBounds.

Lemma fold_min_le_init (l : list nat) (x : nat) : fold_left Nat.min l x <= x.
Proof.
  revert x. induction l as [| y l IH]; intros x; cbn; [lia |].
  specialize (IH (Nat.min x y)). lia.
Qed.

Lemma fold_min_le_elem (l : list nat) (x y : nat) :
  In y l -> fold_left Nat.min l x <= y.
Proof.
  revert x. induction l as [| z l IH]; intros x Hin; [destruct Hin |].
  cbn. destruct Hin as [-> | Hin].
  - pose proof (fold_min_le_init l (Nat.min x y)). lia.
  - apply IH. exact Hin.
Qed.

Lemma fold_min_in (l : list nat) (x : nat) :
  In (fold_left Nat.min l x) (x :: l).
Proof.
  revert x. induction l as [| z l IH]; intros x; cbn; [left; reflexivity |].
  destruct (IH (Nat.min x z)) as [Heq | Hin].
  - destruct (Nat.min_spec x z) as [[_ Hm] | [_ Hm]].
    + left. congruence.
    + right. left. congruence.
  - right. right. exact Hin.
Qed.

Lemma fold_max_ge_init (l : list nat) (x : nat) : x <= fold_left Nat.max l x.
Proof.
  revert x. induction l as [| y l IH]; intros x; cbn; [lia |].
  specialize (IH (Nat.max x y)). lia.
Qed.

Lemma fold_max_ge_elem (l : list nat) (x y : nat) :
  In y l -> y <= fold_left Nat.max l x.
Proof.
  revert x. induction l as [| z l IH]; intros x Hin; [destruct Hin |].
  cbn. destruct Hin as [-> | Hin].
  - pose proof (fold_max_ge_init l (Nat.max x y)). lia.
  - apply IH. exact Hin.
Qed.

Lemma fold_max_in (l : list nat) (x : nat) :
  In (fold_left Nat.max l x) (x :: l).
Proof.
  revert x. induction l as [| z l IH]; intros x; cbn; [left; reflexivity |].
  destruct (IH (Nat.max x z)) as [Heq | Hin].
  - destruct (Nat.max_spec x z) as [[_ Hm] | [_ Hm]].
    + right. left. congruence.
    + left. congruence.
  - right. right. exact Hin.
Qed.

Lemma np_min_spec (l : list nat) (m : nat) :
  Convergence.np_min l = Ok m -> In m l /\ forall y, In y l -> m <= y.
Proof.
  destruct l as [| x l]; cbn; [discriminate |].
  intros [= <-]. split; [apply fold_min_in |].
  intros y [<- | Hin]; [apply fold_min_le_init | apply fold_min_le_elem, Hin].
Qed.

Lemma np_max_spec (l : list nat) (m : nat) :
  Convergence.np_max l = Ok m -> In m l /\ forall y, In y l -> y <= m.
Proof.
  destruct l as [| x l]; cbn; [discriminate |].
  intros [= <-]. split; [apply fold_max_in |].
  intros y [<- | Hin]; [apply fold_max_ge_init | apply fold_max_ge_elem, Hin].
Qed.

Lemma np_min_total (l : list nat) (y : nat) :
  In y l -> exists m, Convergence.np_min l = Ok m.
Proof. destruct l; [intros [] | intros _; eexists; reflexivity]. Qed.

Lemma np_max_total (l : list nat) (y : nat) :
  In y l -> exists m, Convergence.np_max l = Ok m.
Proof. destruct l; [intros [] | intros _; eexists; reflexivity]. Qed.

(** A larger vector has a smaller minimum and a larger maximum. *)
Lemma np_min_incl (l1 l2 : list nat) (m1 : nat) :
  incl l1 l2 -> Convergence.np_min l1 = Ok m1 ->
  exists m2, Convergence.np_min l2 = Ok m2 /\ m2 <= m1.
Proof.
  intros Hincl H1. apply np_min_spec in H1 as [Hin _].
  apply Hincl in Hin.
  destruct (np_min_total l2 m1 Hin) as [m2 H2].
  exists m2. split; [exact H2 |].
  apply np_min_spec in H2 as [_ Hle]. apply Hle, Hin.
Qed.

Lemma np_max_incl (l1 l2 : list nat) (m1 : nat) :
  incl l1 l2 -> Convergence.np_max l1 = Ok m1 ->
  exists m2, Convergence.np_max l2 = Ok m2 /\ m1 <= m2.
Proof.
  intros Hincl H1. apply np_max_spec in H1 as [Hin _].
  apply Hincl in Hin.
  destruct (np_max_total l2 m1 Hin) as [m2 H2].
  exists m2. split; [exact H2 |].
  apply np_max_spec in H2 as [_ Hle]. apply Hle, Hin.
Qed.

Lemma np_min_le_max (l : list nat) (lo hi : nat) :
  Convergence.np_min l = Ok lo -> Convergence.np_max l = Ok hi -> lo <= hi.
Proof.
  intros Hlo Hhi.
  apply np_min_spec in Hlo as [Hin _].
  apply np_max_spec in Hhi as [_ Hle]. apply Hle, Hin.
Qed.

End IndexBounds.

Section Threshold.
Variable Cabs : C -> Q.

Lemma rel_gt_anti (x m tol1 tol2 : Q) :
  (tol2 < tol1)%Q ->
  Convergence.rel_gt x m tol1 = true -> Convergence.rel_gt x m tol2 = true.
Proof.
  unfold Convergence.rel_gt, Convergence.Qlt_bool.
  intros Hlt. destruct (Qeq_bool m 0); [intros H; exact H |].
  rewrite !negb_true_iff.
  intros H1.
  destruct (Qle_bool (x / m) tol2) eqn:H2; [| reflexivity].
  apply Qle_bool_iff in H2.
  assert (Hle : (x / m <= tol1)%Q) by lra.
  apply Qle_bool_iff in Hle. congruence.
Qed.

(** A smaller tolerance admits more voxels. *)
Lemma where_bigger_incl (f : ndarray) (tol1 tol2 : Q) (w1 : list index3) :
  (tol2 < tol1)%Q ->
  Convergence.where_bigger Cabs f tol1 = Ok w1 ->
  exists w2, Convergence.where_bigger Cabs f tol2 = Ok w2 /\ incl w1 w2.
Proof.
  unfold Convergence.where_bigger. intros Hlt.
  destruct (Convergence.np_maxQ _) as [m |]; cbn; [| discriminate].
  intros [= <-]. eexists. split; [reflexivity |].
  intros x Hx. apply filter_In in Hx as [Hin Hgt].
  apply filter_In. split; [exact Hin |].
  eapply rel_gt_anti; eassumption.
Qed.

End Threshold.

Section BoundingBox.
Variable Cabs : C -> Q.

Lemma bounding_box_inv (f : ndarray) (tol : Q) (b : Convergence.box) :
  Convergence.bounding_box Cabs f tol = Ok b ->
  exists w,
    Convergence.where_bigger Cabs f tol = Ok w /\
    Convergence.np_min (map (fun x => x.1.1) w) = Ok (Convergence.min_x_idx b) /\
    Convergence.np_max (map (fun x => x.1.1) w) = Ok (Convergence.max_x_idx b) /\
    Convergence.np_min (map (fun x => x.1.2) w) = Ok (Convergence.min_y_idx b) /\
    Convergence.np_max (map (fun x => x.1.2) w) = Ok (Convergence.max_y_idx b) /\
    Convergence.np_min (map (fun x => x.2) w) = Ok (Convergence.min_z_idx b) /\
    Convergence.np_max (map (fun x => x.2) w) = Ok (Convergence.max_z_idx b).
Proof.
  unfold Convergence.bounding_box.
  destruct (Convergence.where_bigger Cabs f tol) as [w |]; cbn; [| discriminate].
  destruct (Convergence.np_min (map (fun x => x.1.1) w)) eqn:Ex0; cbn; [| discriminate].
  destruct (Convergence.np_max (map (fun x => x.1.1) w)) eqn:Ex1; cbn; [| discriminate].
  destruct (Convergence.np_min (map (fun x => x.1.2) w)) eqn:Ey0; cbn; [| discriminate].
  destruct (Convergence.np_max (map (fun x => x.1.2) w)) eqn:Ey1; cbn; [| discriminate].
  destruct (Convergence.np_min (map (fun x => x.2) w)) eqn:Ez0; cbn; [| discriminate].
  destruct (Convergence.np_max (map (fun x => x.2) w)) eqn:Ez1; cbn; [| discriminate].
  intros [= <-]. exists w. cbn. repeat split; assumption || reflexivity.
Qed.

(** The box is well formed: its minima do not exceed its maxima. *)
Lemma bounding_box_ordered (f : ndarray) (tol : Q) (b : Convergence.box) :
  Convergence.bounding_box Cabs f tol = Ok b ->
  Convergence.min_x_idx b <= Convergence.max_x_idx b /\
  Convergence.min_y_idx b <= Convergence.max_y_idx b /\
  Convergence.min_z_idx b <= Convergence.max_z_idx b.
Proof.
  intros Hb.
  destruct (bounding_box_inv f tol b Hb)
    as (w & _ & Hx0 & Hx1 & Hy0 & Hy1 & Hz0 & Hz1).
  repeat split; eapply np_min_le_max; eassumption.
Qed.

End BoundingBox.

(** C6: for a fixed source field and two tolerances [tol1 > tol2], if the
    set of voxels above [tol1] is not empty (the box at [tol1] exists), the
    box at [tol2] exists and contains it: on every axis the minimal index
    does not grow and the maximal index does not shrink, and so neither the
    volume of the box nor the volume of the retained slice shrinks, and
    every voxel retained at [tol1] is retained at [tol2]. *)
Theorem bounding_box_monotone
    (Cabs : C -> Q) (f : ndarray) (tol1 tol2 : Q) (b1 : Convergence.box)
    (Htol : (tol2 < tol1)%Q)
    (Hb1 : Convergence.bounding_box Cabs f tol1 = Ok b1) :
  exists b2,
    Convergence.bounding_box Cabs f tol2 = Ok b2 /\
    (Convergence.min_x_idx b2 <= Convergence.min_x_idx b1 /\
     Convergence.max_x_idx b1 <= Convergence.max_x_idx b2) /\
    (Convergence.min_y_idx b2 <= Convergence.min_y_idx b1 /\
     Convergence.max_y_idx b1 <= Convergence.max_y_idx b2) /\
    (Convergence.min_z_idx b2 <= Convergence.min_z_idx b1 /\
     Convergence.max_z_idx b1 <= Convergence.max_z_idx b2) /\
    Spec.box_volume b1 <= Spec.box_volume b2 /\
    Spec.slice_volume b1 <= Spec.slice_volume b2 /\
    (forall i j k,
       Convergence.in_slice b1 i j k = true ->
       Convergence.in_slice b2 i j k = true).
Proof.
  pose proof (bounding_box_ordered Cabs f tol1 b1 Hb1) as (Ox & Oy & Oz).
  destruct (bounding_box_inv Cabs f tol1 b1 Hb1)
    as (w1 & Hw1 & Hx0 & Hx1 & Hy0 & Hy1 & Hz0 & Hz1).
  destruct (where_bigger_incl Cabs f tol1 tol2 w1 Htol Hw1) as (w2 & Hw2 & Hincl).
  assert (Hmap : forall g : nat * nat * nat -> nat, incl (map g w1) (map g w2))
    by (intros g; apply incl_map, Hincl).
  destruct (np_min_incl _ _ _ (Hmap (fun x => x.1.1)) Hx0) as (x0 & Ex0 & Lx0).
  destruct (np_max_incl _ _ _ (Hmap (fun x => x.1.1)) Hx1) as (x1 & Ex1 & Lx1).
  destruct (np_min_incl _ _ _ (Hmap (fun x => x.1.2)) Hy0) as (y0 & Ey0 & Ly0).
  destruct (np_max_incl _ _ _ (Hmap (fun x => x.1.2)) Hy1) as (y1 & Ey1 & Ly1).
  destruct (np_min_incl _ _ _ (Hmap (fun x => x.2)) Hz0) as (z0 & Ez0 & Lz0).
  destruct (np_max_incl _ _ _ (Hmap (fun x => x.2)) Hz1) as (z1 & Ez1 & Lz1).
  exists (Convergence.mkBox x0 x1 y0 y1 z0 z1).
  split.
  { unfold Convergence.bounding_box.
    rewrite Hw2; cbn [rbind]. rewrite Ex0; cbn [rbind].
    rewrite Ex1; cbn [rbind]. rewrite Ey0; cbn [rbind].
    rewrite Ey1; cbn [rbind]. rewrite Ez0; cbn [rbind].
    rewrite Ez1; cbn [rbind]. reflexivity. }
  cbn. repeat split; try assumption.
  - unfold Spec.box_volume; cbn.
    repeat apply Nat.mul_le_mono; lia.
  - unfold Spec.slice_volume; cbn.
    repeat apply Nat.mul_le_mono; lia.
  - intros i j k. unfold Convergence.in_slice.
    rewrite !andb_true_iff, !Nat.leb_le, !Nat.ltb_lt. cbn. lia.
Qed.

(** The boxes of the field [1 + i + 2 j + 4 k] at the tolerances 3/4 and
    1/2. *)
Lemma bounding_box_monotone_witness :
  let b1 := Convergence.mkBox 0 1 1 1 1 1 in
  let b2 := Convergence.mkBox 0 1 0 1 1 1 in
  ((1 # 2) < (3 # 4))%Q /\
  Convergence.bounding_box Demo.Cabs Demo.ramp (3 # 4) = Ok b1 /\
  Convergence.bounding_box Demo.Cabs Demo.ramp (1 # 2) = Ok b2 /\
  Spec.box_volume b1 <= Spec.box_volume b2.
Proof.
  intros b1 b2.
  assert (Htol : ((1 # 2) < (3 # 4))%Q) by reflexivity.
  assert (Hb1 : Convergence.bounding_box Demo.Cabs Demo.ramp (3 # 4) = Ok b1)
    by reflexivity.
  destruct (bounding_box_monotone Demo.Cabs Demo.ramp (3 # 4) (1 # 2) b1 Htol Hb1)
    as (b & Hb & _ & _ & _ & Hvol & _ & _).
  assert (Hb2 : Convergence.bounding_box Demo.Cabs Demo.ramp (1 # 2) = Ok b2)
    by reflexivity.
  assert (b = b2) by congruence. subst b.
  repeat split; assumption.
Defined.

(** ** Running code on the store *)

Section Store.

Lemma mbind_Ok {A B : Type} (m : M A) (k : A -> M B) (h h' : heap) (b : B) :
  mbind m k h = Ok (b, h') ->
  exists a h1, m h = Ok (a, h1) /\ k a h1 = Ok (b, h').
Proof.
  unfold mbind. destruct (m h) as [[a h1] |]; [| discriminate].
  intros Hk. exists a, h1. split; [reflexivity | exact Hk].
Qed.

Lemma mret_Ok {A : Type} (a b : A) (h h' : heap) :
  mret a h = Ok (b, h') -> b = a /\ h' = h.
Proof. unfold mret. intros [= <- <-]. split; reflexivity. Qed.

Lemma load_Ok (l : loc) (h h' : heap) (a : ndarray) :
  load l h = Ok (a, h') -> h !! l = Some a /\ h' = h.
Proof.
  unfold load. destruct (h !! l) as [x |]; [| discriminate].
  intros [= <- <-]. split; reflexivity.
Qed.

Lemma alloc_Ok (a : ndarray) (h h' : heap) (l : loc) :
  alloc a h = Ok (l, h') -> l = length h /\ h' = h ++ [a].
Proof. unfold alloc. intros [= <- <-]. split; reflexivity. Qed.

Lemma store_Ok (l : loc) (a : ndarray) (h h' : heap) (u : unit) :
  store l a h = Ok (u, h') -> l < length h /\ h' = <[l := a]> h.
Proof.
  unfold store. destruct (h !! l) as [x |] eqn:E; [| discriminate].
  intros [= _ <-]. split; [eapply lookup_lt_Some, E | reflexivity].
Qed.

Lemma lift_Ok {A : Type} (m : result A) (h h' : heap) (a : A) :
  lift m h = Ok (a, h') -> m = Ok a /\ h' = h.
Proof.
  unfold lift. destruct m; [| discriminate].
  intros [= <- <-]. split; reflexivity.
Qed.

Lemma lookup_name_Ok {A : Type} (x : option A) (h h' : heap) (a : A) :
  lookup_name x h = Ok (a, h') -> x = Some a /\ h' = h.
Proof.
  destruct x; cbn; [| discriminate].
  unfold mret. intros [= <- <-]. split; reflexivity.
Qed.

Lemma load_all_Ok (ls : list loc) (h h' : heap) (vs : list ndarray) :
  load_all ls h = Ok (vs, h') -> h' = h.
Proof.
  revert vs h'. induction ls as [| l ls IH]; intros vs h'; cbn.
  - intros H. apply mret_Ok in H as [_ ->]. reflexivity.
  - intros H.
    apply mbind_Ok in H as (a & h1 & Hl & H).
    apply load_Ok in Hl as [_ ->].
    apply mbind_Ok in H as (rest & h2 & Hr & H).
    apply IH in Hr as ->.
    apply mret_Ok in H as [_ ->]. reflexivity.
Qed.

(** Writing to the object allocated last. *)
Lemma insert_last (h : heap) (a b : ndarray) :
  <[length h := b]> (h ++ [a]) = h ++ [b].
Proof.
  replace (length h) with (length h + 0) at 1 by lia.
  rewrite insert_app_r. reflexivity.
Qed.

Lemma lookup_last (h : heap) (a : ndarray) : (h ++ [a]) !! length h = Some a.
Proof. apply list_lookup_middle. reflexivity. Qed.

End Store.

Section RestrictDomain.
Variable Cabs : C -> Q.

(** What [restrict_domain] returns and does to the store: it allocates
    [P_trim] and writes nowhere else. *)
Lemma restrict_domain_Ok (f_rhs : loc) (tol : Q) (r : grid) (h h' : heap)
    (res : Q * Q * Q * Q * loc) :
  Convergence.restrict_domain Cabs f_rhs tol r h = Ok (res, h') ->
  exists f b,
    h !! f_rhs = Some f /\
    Convergence.bounding_box Cabs f tol = Ok b /\
    res = (coords r (Convergence.min_x_idx b) 0 0 0,
           coords r (Convergence.max_x_idx b) 0 0 0,
           coords r 0 (Convergence.min_y_idx b) 0 1,
           coords r 0 (Convergence.max_y_idx b) 0 1,
           length h) /\
    h' = h ++ [Convergence.slice_assign (zeros (gshape r)) f b].
Proof.
  unfold Convergence.restrict_domain. intros H.
  apply mbind_Ok in H as (f & h1 & Hf & H). apply load_Ok in Hf as [Hf ->].
  apply mbind_Ok in H as (b & h1 & Hb & H). apply lift_Ok in Hb as [Hb ->].
  apply mbind_Ok in H as (p & h1 & Hp & H). apply alloc_Ok in Hp as [-> ->].
  apply mbind_Ok in H as (t & h1 & Ht & H). apply load_Ok in Ht as [Ht ->].
  apply mbind_Ok in H as (u & h1 & Hs & H). apply store_Ok in Hs as [_ ->].
  apply mret_Ok in H as [-> ->].
  rewrite lookup_last in Ht. injection Ht as <-.
  exists f, b. rewrite insert_last. repeat split; assumption.
Qed.

Lemma restrict_domain_run (f_rhs : loc) (tol : Q) (r : grid) (h : heap)
    (f : ndarray) (b : Convergence.box) :
  h !! f_rhs = Some f ->
  Convergence.bounding_box Cabs f tol = Ok b ->
  Convergence.restrict_domain Cabs f_rhs tol r h =
  Ok ((coords r (Convergence.min_x_idx b) 0 0 0,
       coords r (Convergence.max_x_idx b) 0 0 0,
       coords r 0 (Convergence.min_y_idx b) 0 1,
       coords r 0 (Convergence.max_y_idx b) 0 1,
       length h),
      h ++ [Convergence.slice_assign (zeros (gshape r)) f b]).
Proof.
  intros Hf Hb.
  unfold Convergence.restrict_domain, mbind, load, lift, alloc, store, mret.
  rewrite Hf, Hb. cbv beta iota.
  rewrite lookup_last. cbv beta iota.
  rewrite lookup_last, insert_last. reflexivity.
Qed.

(** The trimmed source keeps the source on the half-open slice and is zero
    elsewhere; the planes at the maximal indices are not copied. *)
Lemma trimmed_source_values (s : shape3) (f : ndarray) (b : Convergence.box)
    (i j k : nat) :
  data (Convergence.slice_assign (zeros s) f b) i j k =
  if (Convergence.min_x_idx b <=? i) && (i <? Convergence.max_x_idx b) &&
     (Convergence.min_y_idx b <=? j) && (j <? Convergence.max_y_idx b) &&
     (Convergence.min_z_idx b <=? k) && (k <? Convergence.max_z_idx b)
  then data f i j k else Czero.
Proof. reflexivity. Qed.

End RestrictDomain.

(** C5 at a failing input: on the field [1 + i + 2 j + 4 k] over
    [2 * 2 * 2] voxels and tolerance 1/2, the four voxels with [k = 1]
    exceed the tolerance, the bounding box is [0..1] x [0..1] x [1..1], and
    the trimmed source is zero at every voxel: voxel [(1, 1, 1)] holds 8 in
    the source, lies in the box, and holds 0 in the trimmed source. *)
Theorem restrict_domain_drops_max_index_planes :
  let r := Demo.lattice (2, 2, 2) 0.1 in
  let b := Convergence.mkBox 0 1 0 1 1 1 in
  exists res t,
    Convergence.bounding_box Demo.Cabs Demo.ramp (1 # 2) = Ok b /\
    Convergence.restrict_domain Demo.Cabs 0 (1 # 2) r [Demo.ramp]
      = Ok (res, [Demo.ramp; t]) /\
    res.2 = 1 /\
    data Demo.ramp 1 1 1 = RtoC 8 /\
    Convergence.rel_gt (Demo.Cabs (data Demo.ramp 1 1 1)) 8 (1 # 2) = true /\
    data t 1 1 1 = Czero /\
    (forall i j k, data t i j k = Czero).
Proof.
  intros r b.
  assert (Hb : Convergence.bounding_box Demo.Cabs Demo.ramp (1 # 2) = Ok b)
    by reflexivity.
  eexists. eexists.
  split; [exact Hb |].
  split.
  { apply (restrict_domain_run Demo.Cabs 0 (1 # 2) r [Demo.ramp] Demo.ramp b);
      [reflexivity | exact Hb]. }
  split; [reflexivity |]. split; [reflexivity |]. split; [reflexivity |].
  split; [reflexivity |].
  intros i j k. rewrite trimmed_source_values. cbn [Convergence.min_z_idx
    Convergence.max_z_idx b].
  destruct (1 <=? k) eqn:E1, (k <? 1) eqn:E2;
    rewrite ?andb_false_r, ?andb_false_l; try reflexivity.
  apply Nat.leb_le in E1. apply Nat.ltb_lt in E2. lia.
Qed.

(** ** The study and the state of the cascade *)

Section StudyFrame.
Variable Cabs : C -> Q.
Variable TOL : list Q.
Variable mvp_volume_potential : nat -> ndarray -> ndarray.
Variable r : grid.
Variables beta omega rho c : Q.

(** One turn of the study appends three objects to the store. *)
Lemma study_turn_frame (f_rhs : loc) (mvp : ndarray -> ndarray) (tol : Q)
    (acc acc' : Convergence.pickled) (h h' : heap) :
  Convergence.study_turn Cabs f_rhs mvp r tol acc h = Ok (acc', h') ->
  exists extra, h' = h ++ extra.
Proof.
  unfold Convergence.study_turn. intros H.
  apply mbind_Ok in H as (res & h1 & Hres & H).
  apply restrict_domain_Ok in Hres as (f & b & _ & _ & -> & ->).
  apply mbind_Ok in H as (t & h1 & Ht & H). apply load_Ok in Ht as [_ ->].
  apply mbind_Ok in H as (xv & h1 & Hx & H). apply alloc_Ok in Hx as [-> ->].
  apply mbind_Ok in H as (v & h1 & Hv & H). apply load_Ok in Hv as [_ ->].
  apply mbind_Ok in H as (xo & h1 & Ho & H). apply alloc_Ok in Ho as [-> ->].
  apply mbind_Ok in H as (fd & h1 & Hfd & H). apply load_Ok in Hfd as [_ ->].
  destruct (gshape r) as [[L M0] N].
  apply mret_Ok in H as [_ ->].
  rewrite <- !app_assoc. eexists. reflexivity.
Qed.

Lemma study_loop_frame (f_rhs : loc) (mvp : ndarray -> ndarray)
    (tols : list Q) (acc acc' : Convergence.pickled) (h h' : heap) :
  Convergence.study_loop Cabs f_rhs mvp r tols acc h = Ok (acc', h') ->
  exists extra, h' = h ++ extra.
Proof.
  revert acc h. induction tols as [| tol tols IH]; intros acc h; cbn.
  - intros H. apply mret_Ok in H as [_ ->]. exists []. symmetry. apply app_nil_r.
  - intros H. apply mbind_Ok in H as (acc1 & h1 & Hturn & H).
    apply study_turn_frame in Hturn as [e1 ->].
    apply IH in H as [e2 ->].
    exists (e1 ++ e2). symmetry. apply app_assoc.
Qed.

(** The study leaves every object that exists when it starts as it is. *)
Lemma convergence_domain_size_frame (f_rhs : loc) (mvp : ndarray -> ndarray)
    (res : Convergence.pickled) (h h' : heap) :
  Convergence.convergence_domain_size Cabs TOL f_rhs mvp r h = Ok (res, h') ->
  exists extra, h' = h ++ extra.
Proof. apply study_loop_frame. Qed.

(** The state after the ladder and the reshape: [xIn] and [xInVec] are
    bound to objects with the same values, and nothing that existed before
    was written. *)
Lemma source_stage_Ok (i_harm : nat) (e e1 : Convergence.env) (h h1 : heap) :
  Convergence.source_stage beta omega rho c i_harm e h = Ok (e1, h1) ->
  exists x xv v extra,
    Convergence.xIn e1 = Some x /\
    Convergence.xInVec e1 = Some xv /\
    Convergence.P e1 = Convergence.P e /\
    h1 !! x = Some v /\ h1 !! xv = Some v /\
    h1 = h ++ extra.
Proof.
  unfold Convergence.source_stage. intros H.
  apply mbind_Ok in H as (Ps & h0 & HPs & H). apply load_all_Ok in HPs as ->.
  apply mbind_Ok in H as (xIn' & h0 & Hlad & H).
  assert (Hext : exists extra, h0 = h ++ extra).
  { destruct (Convergence.xIn_ladder beta omega rho c i_harm Ps) as [x0 | | ex].
    - apply mbind_Ok in Hlad as (l & h2 & Hl & Hlad).
      apply alloc_Ok in Hl as [-> ->].
      apply mret_Ok in Hlad as [_ ->]. eexists. reflexivity.
    - apply mret_Ok in Hlad as [_ ->]. exists []. symmetry. apply app_nil_r.
    - discriminate Hlad. }
  destruct Hext as [extra0 ->].
  apply mbind_Ok in H as (x & h2 & Hx & H).
  apply lookup_name_Ok in Hx as [-> ->].
  apply mbind_Ok in H as (v & h2 & Hv & H). apply load_Ok in Hv as [Hv ->].
  apply mbind_Ok in H as (xv & h2 & Hxv & H). apply alloc_Ok in Hxv as [-> ->].
  apply mret_Ok in H as [-> ->].
  exists x, (length (h ++ extra0)), v, (extra0 ++ [v]). cbn.
  repeat split.
  - apply lookup_app_l_Some. exact Hv.
  - apply lookup_last.
  - symmetry. apply app_assoc.
Qed.

(** The solve reads [xInVec] and writes plane [i_harm] of [P]; objects
    appended to the store do not change what it does. *)
Lemma solve_stage_frame (i_harm : nat) (e e' : Convergence.env)
    (h extra h' : heap) (xv : loc) (v : ndarray) :
  Forall (fun p => p < length h) (Convergence.P e) ->
  Convergence.xInVec e = Some xv -> h !! xv = Some v ->
  Convergence.solve_stage mvp_volume_potential i_harm e (h ++ extra)
    = Ok (e', h') ->
  exists p,
    Convergence.P e !! i_harm = Some p /\
    e' = e /\
    h' = <[p := mvp_volume_potential i_harm v]> h ++ extra /\
    Convergence.solve_stage mvp_volume_potential i_harm e h
      = Ok (e, <[p := mvp_volume_potential i_harm v]> h) /\
    h' !! p = Some (mvp_volume_potential i_harm v).
Proof.
  intros Hwf Hxv Hv. unfold Convergence.solve_stage. intros H.
  apply mbind_Ok in H as (xv' & h1 & Hn & H).
  apply lookup_name_Ok in Hn as [Hn ->].
  rewrite Hxv in Hn. injection Hn as <-.
  apply mbind_Ok in H as (v' & h1 & Hl & H). apply load_Ok in Hl as [Hl ->].
  rewrite (lookup_app_l_Some _ _ _ _ Hv) in Hl. injection Hl as <-.
  apply mbind_Ok in H as (p & h1 & Hp & H). apply lift_Ok in Hp as [Hp ->].
  unfold getitem in Hp.
  destruct (Convergence.P e !! i_harm) as [p' |] eqn:EP; [| discriminate Hp].
  injection Hp as ->.
  assert (Hlt : p < length h).
  { rewrite Forall_forall in Hwf. apply Hwf.
    eapply list_elem_of_lookup_2, EP. }
  apply mbind_Ok in H as (u & h1 & Hs & H). apply store_Ok in Hs as [_ ->].
  apply mret_Ok in H as [-> ->].
  exists p. rewrite insert_app_l by exact Hlt.
  repeat split.
  - unfold mbind, lookup_name, mret, load, lift, getitem, store.
    rewrite Hxv. cbv beta iota. rewrite Hv. cbv beta iota.
    rewrite EP. cbv beta iota.
    destruct (lookup_lt_is_Some_2 h p Hlt) as [old Hold].
    rewrite Hold. reflexivity.
  - apply lookup_app_l_Some. apply list_lookup_insert_eq. exact Hlt.
Qed.

End StudyFrame.

(** ** When the study returns *)

Section StudyReturns.
Variable Cabs : C -> Q.

Lemma fold_maxQ_in (l : list Q) (x : Q) :
  In (fold_left (fun m y => if Qle_bool m y then y else m) l x) (x :: l).
Proof.
  revert x. induction l as [| y l IH]; intros x; cbn; [left; reflexivity |].
  destruct (IH (if Qle_bool x y then y else x)) as [Heq | Hin].
  - destruct (Qle_bool x y).
    + right. left. exact Heq.
    + left. exact Heq.
  - right. right. exact Hin.
Qed.

Lemma np_maxQ_in (l : list Q) (m : Q) : Convergence.np_maxQ l = Ok m -> In m l.
Proof.
  destruct l as [| x l]; cbn; [discriminate |].
  intros [= <-]. apply fold_maxQ_in.
Qed.

(** The voxel of maximal modulus has relative amplitude 1. *)
Lemma rel_gt_at_max (m tol : Q) :
  ~ (m == 0)%Q -> (tol < 1)%Q -> Convergence.rel_gt m m tol = true.
Proof.
  intros Hm Htol. unfold Convergence.rel_gt, Convergence.Qlt_bool.
  destruct (Qeq_bool m 0) eqn:E; [apply Qeq_bool_iff in E; contradiction |].
  apply negb_true_iff.
  destruct (Qle_bool (m / m) tol) eqn:E1; [| reflexivity].
  apply Qle_bool_iff in E1.
  assert (H1 : (m / m == 1)%Q) by (field; exact Hm).
  rewrite H1 in E1. lra.
Qed.

(** A source whose maximal modulus is not zero has a bounding box at every
    tolerance below 1. *)
Lemma bounding_box_exists (f : ndarray) (tol m : Q) :
  Convergence.np_maxQ
    (map (fun x => Cabs (at_index f x)) (indices (shape f))) = Ok m ->
  ~ (m == 0)%Q -> (tol < 1)%Q ->
  exists b, Convergence.bounding_box Cabs f tol = Ok b.
Proof.
  intros Hmax Hm Htol.
  unfold Convergence.bounding_box, Convergence.where_bigger.
  rewrite Hmax. cbn [rbind].
  apply np_maxQ_in in Hmax. apply in_map_iff in Hmax as (x & Hx & Hin).
  set (w := List.filter _ _).
  assert (Hw : In x w).
  { apply filter_In. split; [exact Hin |].
    rewrite Hx. apply rel_gt_at_max; assumption. }
  destruct (np_min_total (map (fun y : nat * nat * nat => y.1.1) w) _
              (in_map _ _ _ Hw)) as [x0 E0].
  destruct (np_max_total (map (fun y : nat * nat * nat => y.1.1) w) _
              (in_map _ _ _ Hw)) as [x1 E1].
  destruct (np_min_total (map (fun y : nat * nat * nat => y.1.2) w) _
              (in_map _ _ _ Hw)) as [y0 E2].
  destruct (np_max_total (map (fun y : nat * nat * nat => y.1.2) w) _
              (in_map _ _ _ Hw)) as [y1 E3].
  destruct (np_min_total (map (fun y : nat * nat * nat => y.2) w) _
              (in_map _ _ _ Hw)) as [z0 E4].
  destruct (np_max_total (map (fun y : nat * nat * nat => y.2) w) _
              (in_map _ _ _ Hw)) as [z1 E5].
  rewrite E0; cbn [rbind]. rewrite E1; cbn [rbind].
  rewrite E2; cbn [rbind]. rewrite E3; cbn [rbind].
  rewrite E4; cbn [rbind]. rewrite E5; cbn [rbind].
  eexists. reflexivity.
Qed.

Variable r : grid.

Lemma study_turn_run (f_rhs : loc) (mvp : ndarray -> ndarray) (tol : Q)
    (acc : Convergence.pickled) (h : heap) (f : ndarray) (b : Convergence.box) :
  h !! f_rhs = Some f ->
  Convergence.bounding_box Cabs f tol = Ok b ->
  exists acc',
    Convergence.study_turn Cabs f_rhs mvp r tol acc h =
    let t := Convergence.slice_assign (zeros (gshape r)) f b in
    Ok (acc', h ++ [t; t; mvp t]).
Proof.
  intros Hf Hb. unfold Convergence.study_turn.
  unfold mbind at 1. rewrite (restrict_domain_run Cabs f_rhs tol r h f b Hf Hb).
  cbv beta iota zeta.
  unfold mbind, load, alloc, mret.
  rewrite lookup_last. cbv beta iota.
  rewrite lookup_last. cbv beta iota.
  rewrite lookup_last. cbv beta iota.
  destruct (gshape r) as [[L M0] N].
  rewrite <- !app_assoc. cbn [app]. eexists. reflexivity.
Qed.

(** The study returns, and appends three objects for each tolerance. *)
Lemma study_loop_returns (f_rhs : loc) (mvp : ndarray -> ndarray)
    (tols : list Q) (acc : Convergence.pickled) (h : heap) (f : ndarray) :
  h !! f_rhs = Some f ->
  (forall tol, In tol tols -> exists b, Convergence.bounding_box Cabs f tol = Ok b) ->
  exists res objs,
    Convergence.study_loop Cabs f_rhs mvp r tols acc h = Ok (res, h ++ objs) /\
    length objs = 3 * length tols.
Proof.
  revert acc h. induction tols as [| tol tols IH]; intros acc h Hf Hbox.
  - exists acc, []. cbn. unfold mret. rewrite app_nil_r. split; reflexivity.
  - destruct (Hbox tol (or_introl eq_refl)) as [b Hb].
    destruct (study_turn_run f_rhs mvp tol acc h f b Hf Hb) as [acc1 Hturn].
    cbv zeta in Hturn.
    destruct (IH acc1 (h ++ [Convergence.slice_assign (zeros (gshape r)) f b;
                             Convergence.slice_assign (zeros (gshape r)) f b;
                             mvp (Convergence.slice_assign (zeros (gshape r)) f b)]))
      as (res & objs & Hloop & Hlen).
    { apply lookup_app_l_Some. exact Hf. }
    { intros t Ht. apply Hbox. right. exact Ht. }
    eexists res, (_ ++ objs).
    cbn [Convergence.study_loop]. unfold mbind at 1. rewrite Hturn.
    rewrite Hloop, <- app_assoc. split; [reflexivity |].
    rewrite length_app. cbn [length]. lia.
Qed.

End StudyReturns.

Section TurnReturns.
Variable Cabs : C -> Q.
Variable TOL : list Q.
Variable mvp_volume_potential : nat -> ndarray -> ndarray.
Variable r : grid.
Variables beta omega rho c : Q.

Lemma solve_stage_extend (i_harm : nat) (e e' : Convergence.env)
    (h h0 objs : heap) :
  Convergence.solve_stage mvp_volume_potential i_harm e h = Ok (e', h0) ->
  Convergence.solve_stage mvp_volume_potential i_harm e (h ++ objs)
    = Ok (e', h0 ++ objs).
Proof.
  unfold Convergence.solve_stage. intros H.
  apply mbind_Ok in H as (xv & h1 & Hn & H).
  apply lookup_name_Ok in Hn as [Hn ->].
  apply mbind_Ok in H as (v & h1 & Hl & H). apply load_Ok in Hl as [Hl ->].
  apply mbind_Ok in H as (p & h1 & Hp & H). apply lift_Ok in Hp as [Hp ->].
  apply mbind_Ok in H as (u & h1 & Hs & H). apply store_Ok in Hs as [Hlt ->].
  apply mret_Ok in H as [-> ->].
  unfold mbind, lookup_name, mret, load, lift, store.
  rewrite Hn. cbv beta iota.
  rewrite (lookup_app_l_Some _ _ _ _ Hl). cbv beta iota.
  rewrite Hp. cbv beta iota.
  destruct (lookup_lt_is_Some_2 h p Hlt) as [old Hold].
  rewrite (lookup_app_l_Some _ _ _ _ Hold). cbv beta iota.
  rewrite insert_app_l by exact Hlt. reflexivity.
Qed.

(** The converse of the frame property: a turn that completes without the
    study completes with it, in the same state, whenever the source term has
    a bounding box at every tolerance of the study. *)
Lemma study_does_not_block_turn (i_harm : nat) (e e' e1 : Convergence.env)
    (h h1 h0 : heap) (x : loc) (v : ndarray) :
  Convergence.source_stage beta omega rho c i_harm e h = Ok (e1, h1) ->
  Convergence.xIn e1 = Some x -> h1 !! x = Some v ->
  (forall tol, In tol TOL -> exists b, Convergence.bounding_box Cabs v tol = Ok b) ->
  Convergence.harmonic_step_without_study mvp_volume_potential
    beta omega rho c i_harm e h = Ok (e', h0) ->
  exists objs,
    Convergence.harmonic_step Cabs TOL mvp_volume_potential r
      beta omega rho c i_harm e h = Ok (e', h0 ++ objs) /\
    length objs = 3 * length TOL.
Proof.
  intros Hsrc Hx Hv Hbox Hwithout.
  unfold Convergence.harmonic_step_without_study, mbind in Hwithout.
  rewrite Hsrc in Hwithout.
  destruct (study_loop_returns Cabs r x (mvp_volume_potential i_harm) TOL
              Convergence.empty_pickled h1 v Hv Hbox)
    as (res & objs & Hstudy & Hlen).
  exists objs. split; [| exact Hlen].
  unfold Convergence.harmonic_step, Convergence.convergence_domain_size.
  unfold mbind at 1. rewrite Hsrc.
  unfold mbind at 1. rewrite Hx. cbn [lookup_name]. unfold mret at 1.
  unfold mbind at 1. rewrite Hstudy.
  apply solve_stage_extend. exact Hwithout.
Qed.

End TurnReturns.

(** C10: when a turn of the loop over the harmonics completes, the study it
    ran wrote to no object that existed before it started: the source term
    [xIn], the source vector [xInVec] and the planes of [P] are in the store
    after the study as they were before it, the study only appended objects
    of its own; plane [i_harm] of [P] then holds the volume potential of the
    full source vector, whose values are those of [xIn]; and the store and
    the names at the end of the turn are those of the same turn without the
    study, followed by the objects of the study. *)
Theorem study_leaves_cascade_state
    (Cabs : C -> Q) (TOL : list Q)
    (mvp_volume_potential : nat -> ndarray -> ndarray) (r : grid)
    (beta omega rho c : Q)
    (i_harm : nat) (e e' : Convergence.env) (h h' : heap)
    (Hwf : Forall (fun p => p < length h) (Convergence.P e))
    (Hstep : Convergence.harmonic_step Cabs TOL mvp_volume_potential r
               beta omega rho c i_harm e h = Ok (e', h')) :
  exists (e1 : Convergence.env) (h1 : heap) (x xv p : loc) (v : ndarray)
         (res : Convergence.pickled) (study_objects : heap) (h0 : heap),
    (* the state when the study starts *)
    Convergence.source_stage beta omega rho c i_harm e h = Ok (e1, h1) /\
    Convergence.xIn e1 = Some x /\ Convergence.xInVec e1 = Some xv /\
    h1 !! x = Some v /\ h1 !! xv = Some v /\
    (* the study appends to the store and changes nothing in it, and so
       does every call of [restrict_domain] on the source term *)
    Convergence.convergence_domain_size Cabs TOL x
      (mvp_volume_potential i_harm) r h1 = Ok (res, h1 ++ study_objects) /\
    (forall tol out h2,
       Convergence.restrict_domain Cabs x tol r h1 = Ok (out, h2) ->
       exists P_trim, h2 = h1 ++ [P_trim]) /\
    (* the field stored for this order *)
    Convergence.P e !! i_harm = Some p /\
    h' !! p = Some (mvp_volume_potential i_harm v) /\
    (* the turn without the study *)
    Convergence.harmonic_step_without_study mvp_volume_potential
      beta omega rho c i_harm e h = Ok (e', h0) /\
    h' = h0 ++ study_objects.
Proof.
  unfold Convergence.harmonic_step in Hstep.
  apply mbind_Ok in Hstep as (e1 & h1 & Hsrc & Hstep).
  apply mbind_Ok in Hstep as (x' & h2 & Hx & Hstep).
  apply lookup_name_Ok in Hx as [Hx ->].
  apply mbind_Ok in Hstep as (res & h2 & Hstudy & Hsolve).
  destruct (convergence_domain_size_frame _ _ _ _ _ _ _ _ Hstudy)
    as [study_objects ->].
  destruct (source_stage_Ok _ _ _ _ _ _ _ _ _ Hsrc)
    as (x & xv & v & extra & HxIn & HxInVec & HP & Hvx & Hvxv & Hh1).
  rewrite Hx in HxIn. injection HxIn as ->.
  assert (Hwf1 : Forall (fun p => p < length h1) (Convergence.P e1)).
  { rewrite HP, Hh1. eapply Forall_impl; [exact Hwf |].
    intros p Hp. cbn in *. rewrite length_app. lia. }
  destruct (solve_stage_frame mvp_volume_potential i_harm e1 e' h1
              study_objects h' xv v Hwf1 HxInVec Hvxv Hsolve)
    as (p & HPi & -> & -> & Hsolve0 & Hp).
  exists e1, h1, x, xv, p, v, res, study_objects,
    (<[p := mvp_volume_potential i_harm v]> h1).
  rewrite <- HP.
  repeat split; try assumption.
  - intros tol out h2 Hrd.
    apply restrict_domain_Ok in Hrd as (f & b & _ & _ & _ & ->).
    eexists. reflexivity.
  - unfold Convergence.harmonic_step_without_study, mbind.
    rewrite Hsrc. exact Hsolve0.
Qed.

(** The first turn on the field [1 + i + 2 j + 4 k], with a study of two
    tolerances: the study leaves six objects of its own behind. *)
Lemma study_leaves_cascade_state_witness :
  let r := Demo.lattice (2, 2, 2) 0.1 in
  let e := Demo.env0 2 in
  let h := Demo.store0 2 Demo.ramp in
  Forall (fun p => p < length h) (Convergence.P e) /\
  exists e' h' h0 study_objects,
    Convergence.harmonic_step Demo.Cabs Demo.TOL Demo.mvp r 1 1 1 1 1 e h
      = Ok (e', h') /\
    Convergence.harmonic_step_without_study Demo.mvp 1 1 1 1 1 e h
      = Ok (e', h0) /\
    h' = h0 ++ study_objects /\
    length study_objects = 6.
Proof.
  intros r e h.
  assert (Hwf : Forall (fun p => p < length h) (Convergence.P e)).
  { repeat constructor. }
  split; [exact Hwf |].
  destruct (Convergence.harmonic_step Demo.Cabs Demo.TOL Demo.mvp r 1 1 1 1 1 e h)
    as [[e' h'] | ex] eqn:Hstep; [| vm_compute in Hstep; discriminate Hstep].
  destruct (study_leaves_cascade_state Demo.Cabs Demo.TOL Demo.mvp r 1 1 1 1
              1 e e' h h' Hwf Hstep)
    as (e1 & h1 & x & xv & p & v & res & objs & h0 &
        Hsrc & _ & _ & _ & _ & Hstudy & _ & _ & _ & Hwithout & Hh').
  exists e', h', h0, objs.
  repeat split; try assumption.
  assert (Hlen : length h' = 10).
  { vm_compute in Hstep. injection Hstep as _ <-. reflexivity. }
  assert (Hlen0 : length h0 = 4).
  { vm_compute in Hwithout. injection Hwithout as _ <-. reflexivity. }
  rewrite Hh', length_app, Hlen0 in Hlen. lia.
Defined.

(** ** Orders without a branch in the ladder *)

(** Beyond order 4 no branch of the ladder of the domain-convergence script
    runs, and beyond order 6 none of the interpolation script: [xIn] keeps
    the array of the previous turn. *)
Lemma xIn_ladder_beyond_table
    {F G : Type} `{ArrayOps F} (interpolate : G * F -> G -> result F)
    (beta omega rho c : Q) (i_harm : nat) (P : list F)
    (interp_funs : list (G * F)) (points2 : option G) :
  (5 <= i_harm ->
   Convergence.xIn_ladder beta omega rho c i_harm P = Fallthrough) /\
  (7 <= i_harm ->
   Interpolation.xIn_ladder interpolate beta omega rho c i_harm P
     interp_funs points2 = Fallthrough).
Proof.
  split; intros Hi.
  - do 5 (destruct i_harm as [| i_harm]; [lia |]). reflexivity.
  - do 7 (destruct i_harm as [| i_harm]; [lia |]). reflexivity.
Qed.

(** C8 at a failing input: with [n_harm = 6] the domain-convergence script
    reaches order 5, which has no branch in its ladder.  The turn raises
    nothing: [xIn] is still the array object built at order 4, and plane 5
    of [P] receives the volume potential, at the sixth harmonic, of that
    order-4 source term. *)
Theorem unsupported_order_reuses_previous_source :
  let r := Demo.lattice (2, 1, 1) 0.1 in
  let run := Convergence.harmonic_loop Demo.Cabs Demo.TOL Demo.mvp r 1 1 1 1 in
  let e0 := Demo.env0 6 in
  let h0 := Demo.store0 6 (Demo.const (2, 1, 1) 1) in
  exists e4 h4 e5 h5 x v p,
    run [1; 2; 3; 4] e0 h0 = Ok (e4, h4) /\
    Convergence.harmonic_step Demo.Cabs Demo.TOL Demo.mvp r 1 1 1 1 5 e4 h4
      = Ok (e5, h5) /\
    Convergence.cascade Demo.Cabs Demo.TOL Demo.mvp r 1 1 1 1 6 e0 h0
      = Ok (e5, h5) /\
    Convergence.xIn e4 = Some x /\ Convergence.xIn e5 = Some x /\
    h4 !! x = Some v /\ h5 !! x = Some v /\
    Convergence.P e5 !! 5 = Some p /\
    h5 !! p = Some (Demo.mvp 5 v).
Proof.
  intros r run e0 h0.
  do 7 eexists.
  split; [vm_compute; reflexivity |].
  split; [vm_compute; reflexivity |].
  split; [vm_compute; reflexivity |].
  split; [reflexivity |]. split; [reflexivity |].
  split; [reflexivity |]. split; [reflexivity |].
  split; reflexivity.
Qed.

(** ** Fields and meshes in the interpolation script *)

(** C4 at a failing input: the script as it stands ([n_harm = 5]).  At the
    orders 2 and 3 the source term is built from fields interpolated onto
    the current mesh (mesh 1).  Order 4 triggers a refinement to mesh 2, and
    its branch multiplies [P[0]], [P[3]], [P[1]] and [P[2]] as they are:
    fields sampled on the meshes 0, 1, 0 and 1, none of them remapped onto
    mesh 2, on which the volume potential is then evaluated. *)
Theorem order_4_source_mixes_superseded_meshes :
  (forall (F G : Type) (ops : ArrayOps F)
          (interpolate : G * F -> G -> result F) (beta omega rho c : Q)
          (P : list F) (interp_funs : list (G * F)) (points2 : option G),
     Interpolation.xIn_ladder interpolate beta omega rho c 4 P interp_funs
       points2 = Convergence.xIn_ladder beta omega rho c 4 P) /\
  exists s2 s3 s4,
    Interpolation.mesh_cascade 3 = Ok s2 /\
    Interpolation.cur s2 = 1 /\ Interpolation.xIn s2 = Some [1; 1] /\
    Interpolation.mesh_cascade 4 = Ok s3 /\
    Interpolation.cur s3 = 1 /\ Interpolation.xIn s3 = Some [1; 1; 1; 1] /\
    Interpolation.P s3 = [[0]; [0]; [1]; [1]] /\
    Interpolation.refines 4 = true /\
    Interpolation.mesh_cascade 5 = Ok s4 /\
    Interpolation.cur s4 = 2 /\ Interpolation.xIn s4 = Some [0; 1; 0; 1] /\
    Interpolation.P s4 = [[0]; [0]; [1]; [1]; [2]].
Proof.
  split; [reflexivity |].
  do 3 eexists.
  split; [vm_compute; reflexivity |]. split; [reflexivity |].
  split; [reflexivity |].
  split; [vm_compute; reflexivity |]. split; [reflexivity |].
  split; [reflexivity |]. split; [reflexivity |].
  split; [reflexivity |].
  split; [vm_compute; reflexivity |]. split; [reflexivity |].
  split; reflexivity.
Qed.

(** * Further properties of the two scripts *)

(** ** [is_power_of_two] on every integer *)

(** [is_power_of_two(n)] holds exactly for the integers 1, 2, 4, 8, ...; it
    is false for 0 and for every negative integer. *)
Theorem is_power_of_two_iff (n : Z) :
  Interpolation.is_power_of_two n = true <->
  exists k : Z, (0 <= k)%Z /\ n = (2 ^ k)%Z.
Proof.
  destruct (Z.le_gt_cases 0 n) as [Hn | Hn];
    [apply is_power_of_two_spec; exact Hn |].
  split.
  - unfold Interpolation.is_power_of_two.
    rewrite andb_true_iff, Z.eqb_eq. intros [_ Hland].
    assert (Hneg : (Z.land n (n - 1) < 0)%Z) by (apply Z.land_neg; lia).
    lia.
  - intros (k & Hk & ->).
    pose proof (Z.pow_pos_nonneg 2 k). lia.
Qed.

(** ** The bounding box of the thresholded voxels *)

Section BoxFacts.
Variable Cabs : C -> Q.

Lemma indices_In (L M N i j k : nat) :
  In (i, j, k) (indices (L, M, N)) <-> i < L /\ j < M /\ k < N.
Proof.
  unfold indices. rewrite in_flat_map. split.
  - intros (i' & Hi & H). apply in_flat_map in H as (j' & Hj & H).
    apply in_map_iff in H as (k' & [= -> -> ->] & Hk).
    apply in_seq in Hi, Hj, Hk. lia.
  - intros (Hi & Hj & Hk). exists i. split; [apply in_seq; lia |].
    apply in_flat_map. exists j. split; [apply in_seq; lia |].
    apply in_map_iff. exists k. split; [reflexivity | apply in_seq; lia].
Qed.

Lemma fold_maxQ_ge_init (l : list Q) (x : Q) :
  (x <= fold_left (fun m y => if Qle_bool m y then y else m) l x)%Q.
Proof.
  revert x. induction l as [| y l IH]; intros x; cbn; [apply Qle_refl |].
  destruct (Qle_bool x y) eqn:E.
  - apply Qle_bool_iff in E. eapply Qle_trans; [exact E | apply IH].
  - apply IH.
Qed.

Lemma fold_maxQ_ge_elem (l : list Q) (x y : Q) :
  In y l -> (y <= fold_left (fun m y => if Qle_bool m y then y else m) l x)%Q.
Proof.
  revert x. induction l as [| z l IH]; intros x Hin; [destruct Hin |].
  cbn. destruct Hin as [-> | Hin]; [| apply IH, Hin].
  destruct (Qle_bool x y) eqn:E.
  - apply fold_maxQ_ge_init.
  - assert (Hlt : (y <= x)%Q).
    { destruct (Qlt_le_dec y x) as [H | H]; [apply Qlt_le_weak, H |].
      apply Qle_bool_iff in H. congruence. }
    eapply Qle_trans; [exact Hlt | apply fold_maxQ_ge_init].
Qed.

(** [np.max] is an upper bound of the vector. *)
Lemma np_maxQ_ge (l : list Q) (m y : Q) :
  Convergence.np_maxQ l = Ok m -> In y l -> (y <= m)%Q.
Proof.
  destruct l as [| x l]; cbn; [discriminate |].
  intros [= <-] [<- | Hin];
    [apply fold_maxQ_ge_init | apply fold_maxQ_ge_elem, Hin].
Qed.

Lemma where_bigger_In (f : ndarray) (tol : Q) (w : list index3) (i j k : nat) :
  Convergence.where_bigger Cabs f tol = Ok w ->
  exists m,
    Convergence.np_maxQ
      (map (fun x => Cabs (at_index f x)) (indices (shape f))) = Ok m /\
    (In (i, j, k) w <->
     In (i, j, k) (indices (shape f)) /\
     Convergence.rel_gt (Cabs (data f i j k)) m tol = true).
Proof.
  unfold Convergence.where_bigger.
  destruct (Convergence.np_maxQ _) as [m |]; cbn [rbind]; [| discriminate].
  intros [= <-]. exists m. split; [reflexivity |].
  rewrite filter_In. reflexivity.
Qed.

End BoxFacts.

(** The box of [restrict_domain] encloses every voxel above the tolerance,
    touches such a voxel on each of its six faces, and lies within the
    array. *)
Theorem bounding_box_encloses
    (Cabs : C -> Q) (f : ndarray) (tol : Q) (b : Convergence.box)
    (L M N : nat) (Hshape : shape f = (L, M, N))
    (Hb : Convergence.bounding_box Cabs f tol = Ok b) :
  exists m,
    Convergence.np_maxQ
      (map (fun x => Cabs (at_index f x)) (indices (shape f))) = Ok m /\
    let above := fun i j k =>
      i < L /\ j < M /\ k < N /\
      Convergence.rel_gt (Cabs (data f i j k)) m tol = true in
    (forall i j k, above i j k ->
       Convergence.min_x_idx b <= i <= Convergence.max_x_idx b /\
       Convergence.min_y_idx b <= j <= Convergence.max_y_idx b /\
       Convergence.min_z_idx b <= k <= Convergence.max_z_idx b) /\
    (exists j k, above (Convergence.min_x_idx b) j k) /\
    (exists j k, above (Convergence.max_x_idx b) j k) /\
    (exists i k, above i (Convergence.min_y_idx b) k) /\
    (exists i k, above i (Convergence.max_y_idx b) k) /\
    (exists i j, above i j (Convergence.min_z_idx b)) /\
    (exists i j, above i j (Convergence.max_z_idx b)) /\
    Convergence.max_x_idx b < L /\ Convergence.max_y_idx b < M /\
    Convergence.max_z_idx b < N.
Proof.
  destruct (bounding_box_inv Cabs f tol b Hb)
    as (w & Hw & Hx0 & Hx1 & Hy0 & Hy1 & Hz0 & Hz1).
  destruct (where_bigger_In Cabs f tol w 0 0 0 Hw) as (m & Hm & _).
  assert (Hin : forall i j k,
             In (i, j, k) w <->
             i < L /\ j < M /\ k < N /\
             Convergence.rel_gt (Cabs (data f i j k)) m tol = true).
  { intros i j k.
    destruct (where_bigger_In Cabs f tol w i j k Hw) as (m' & Hm' & Hiff).
    assert (m' = m) by congruence. subst m'.
    rewrite Hiff, Hshape, indices_In. tauto. }
  exists m. split; [exact Hm |]. cbv zeta.
  apply np_min_spec in Hx0 as [Ax0 Bx0]. apply np_max_spec in Hx1 as [Ax1 Bx1].
  apply np_min_spec in Hy0 as [Ay0 By0]. apply np_max_spec in Hy1 as [Ay1 By1].
  apply np_min_spec in Hz0 as [Az0 Bz0]. apply np_max_spec in Hz1 as [Az1 Bz1].
  apply in_map_iff in Ax0 as ([[i0 j0] k0] & E0 & I0).
  apply in_map_iff in Ax1 as ([[i1 j1] k1] & E1 & I1).
  apply in_map_iff in Ay0 as ([[i2 j2] k2] & E2 & I2).
  apply in_map_iff in Ay1 as ([[i3 j3] k3] & E3 & I3).
  apply in_map_iff in Az0 as ([[i4 j4] k4] & E4 & I4).
  apply in_map_iff in Az1 as ([[i5 j5] k5] & E5 & I5).
  cbn in E0, E1, E2, E3, E4, E5. subst.
  apply Hin in I0, I1, I2, I3, I4, I5.
  split.
  { intros i j k Habove. apply Hin in Habove.
    pose proof (in_map (fun x : nat * nat * nat => x.1.1) _ _ Habove) as Px.
    pose proof (in_map (fun x : nat * nat * nat => x.1.2) _ _ Habove) as Py.
    pose proof (in_map (fun x : nat * nat * nat => x.2) _ _ Habove) as Pz.
    cbn in Px, Py, Pz.
    pose proof (Bx0 _ Px). pose proof (Bx1 _ Px).
    pose proof (By0 _ Py). pose proof (By1 _ Py).
    pose proof (Bz0 _ Pz). pose proof (Bz1 _ Pz). lia. }
  repeat split; eauto; tauto.
Qed.

Lemma bounding_box_encloses_witness :
  let b := Convergence.mkBox 0 1 0 1 1 1 in
  shape Demo.ramp = (2, 2, 2) /\
  Convergence.bounding_box Demo.Cabs Demo.ramp (1 # 2) = Ok b /\
  (exists i j, i < 2 /\ j < 2 /\ Convergence.min_z_idx b < 2 /\
     Convergence.rel_gt
       (Demo.Cabs (data Demo.ramp i j (Convergence.min_z_idx b))) 8 (1 # 2)
     = true) /\
  Convergence.max_z_idx b < 2.
Proof.
  intros b.
  assert (Hs : shape Demo.ramp = (2, 2, 2)) by reflexivity.
  assert (Hb : Convergence.bounding_box Demo.Cabs Demo.ramp (1 # 2) = Ok b)
    by reflexivity.
  destruct (bounding_box_encloses Demo.Cabs Demo.ramp (1 # 2) b 2 2 2 Hs Hb)
    as (m & Hm & _ & _ & _ & _ & _ & (i & j & Hz0) & _ & _ & _ & Hz1).
  assert (Hm8 : Ok m = Ok (8 : Q)) by (rewrite <- Hm; reflexivity).
  injection Hm8 as ->.
  repeat split; try assumption. exists i, j. exact Hz0.
Defined.

Section BoxReturns.
Variable Cabs : C -> Q.

Lemma np_min_raises (l : list nat) (e : exn) :
  Convergence.np_min l = Raise e -> e = ValueError.
Proof. destruct l; cbn; [intros [= <-]; reflexivity | discriminate]. Qed.

Lemma np_max_raises (l : list nat) (e : exn) :
  Convergence.np_max l = Raise e -> e = ValueError.
Proof. destruct l; cbn; [intros [= <-]; reflexivity | discriminate]. Qed.

Lemma np_maxQ_raises (l : list Q) (e : exn) :
  Convergence.np_maxQ l = Raise e -> e = ValueError.
Proof. destruct l; cbn; [intros [= <-]; reflexivity | discriminate]. Qed.

(** [ValueError] is the only exception of the index computations. *)
Lemma bounding_box_raises (f : ndarray) (tol : Q) (e : exn) :
  Convergence.bounding_box Cabs f tol = Raise e -> e = ValueError.
Proof.
  unfold Convergence.bounding_box, Convergence.where_bigger.
  destruct (Convergence.np_maxQ _) as [m |] eqn:Em; cbn [rbind];
    [| intros [= <-]; eapply np_maxQ_raises, Em].
  set (w := List.filter _ _).
  destruct (Convergence.np_min (map (fun x : nat * nat * nat => x.1.1) w)) eqn:E0;
    cbn [rbind]; [| intros [= <-]; eapply np_min_raises, E0].
  destruct (Convergence.np_max (map (fun x : nat * nat * nat => x.1.1) w)) eqn:E1;
    cbn [rbind]; [| intros [= <-]; eapply np_max_raises, E1].
  destruct (Convergence.np_min (map (fun x : nat * nat * nat => x.1.2) w)) eqn:E2;
    cbn [rbind]; [| intros [= <-]; eapply np_min_raises, E2].
  destruct (Convergence.np_max (map (fun x : nat * nat * nat => x.1.2) w)) eqn:E3;
    cbn [rbind]; [| intros [= <-]; eapply np_max_raises, E3].
  destruct (Convergence.np_min (map (fun x : nat * nat * nat => x.2) w)) eqn:E4;
    cbn [rbind]; [| intros [= <-]; eapply np_min_raises, E4].
  destruct (Convergence.np_max (map (fun x : nat * nat * nat => x.2) w)) eqn:E5;
    cbn [rbind]; [| intros [= <-]; eapply np_max_raises, E5].
  discriminate.
Qed.

(** A box exists only if some voxel is above the tolerance. *)
Lemma bounding_box_has_voxel (f : ndarray) (tol : Q) (b : Convergence.box) :
  Convergence.bounding_box Cabs f tol = Ok b ->
  exists m i j k,
    Convergence.np_maxQ
      (map (fun x => Cabs (at_index f x)) (indices (shape f))) = Ok m /\
    In (i, j, k) (indices (shape f)) /\
    Convergence.rel_gt (Cabs (data f i j k)) m tol = true.
Proof.
  intros Hb.
  destruct (bounding_box_inv Cabs f tol b Hb) as (w & Hw & Hx0 & _).
  apply np_min_spec in Hx0 as [Hin _].
  apply in_map_iff in Hin as ([[i j] k] & _ & Hin).
  destruct (where_bigger_In Cabs f tol w i j k Hw) as (m & Hm & Hiff).
  destruct (proj1 Hiff Hin) as [Hidx Hgt].
  exists m, i, j, k. repeat split; assumption.
Qed.

Lemma rel_gt_true (x m tol : Q) :
  Convergence.rel_gt x m tol = true -> ~ (m == 0)%Q /\ (tol < x / m)%Q.
Proof.
  unfold Convergence.rel_gt, Convergence.Qlt_bool.
  destruct (Qeq_bool m 0) eqn:E; [discriminate |].
  rewrite negb_true_iff. intros H. split.
  - intros Hm. apply Qeq_bool_iff in Hm. congruence.
  - destruct (Qlt_le_dec tol (x / m)) as [Hlt | Hle]; [exact Hlt |].
    apply Qle_bool_iff in Hle. congruence.
Qed.

End BoxReturns.

(** For a modulus that is never negative, [restrict_domain] finds a box
    exactly when the tolerance is below 1 and some voxel of the source has a
    modulus that is not zero; in every other case (an empty array, a source
    that is zero everywhere, a tolerance of 1 or more) the index computation
    raises [ValueError], and it raises nothing else. *)
Theorem bounding_box_returns_iff
    (Cabs : C -> Q) (Hnonneg : forall z, (0 <= Cabs z)%Q)
    (f : ndarray) (tol : Q) (L M N : nat) (Hshape : shape f = (L, M, N)) :
  ((exists b, Convergence.bounding_box Cabs f tol = Ok b) <->
   (tol < 1)%Q /\
   exists i j k, i < L /\ j < M /\ k < N /\ ~ (Cabs (data f i j k) == 0)%Q) /\
  (forall e, Convergence.bounding_box Cabs f tol = Raise e -> e = ValueError).
Proof.
  split; [| intros e; apply bounding_box_raises].
  split.
  - intros [b Hb].
    destruct (bounding_box_has_voxel Cabs f tol b Hb)
      as (m & i & j & k & Hm & Hidx & Hgt).
    apply rel_gt_true in Hgt as [Hm0 Hlt].
    assert (Hle : (Cabs (data f i j k) <= m)%Q).
    { eapply np_maxQ_ge; [exact Hm |].
      apply (in_map (fun x => Cabs (at_index f x)) _ (i, j, k)), Hidx. }
    pose proof (Hnonneg (data f i j k)) as H0.
    assert (Hpos : (0 < m)%Q).
    { destruct (Qlt_le_dec 0 m) as [H | H]; [exact H |].
      exfalso. apply Hm0. lra. }
    split.
    + assert (Hq : (Cabs (data f i j k) / m <= 1)%Q).
      { apply Qle_shift_div_r; [exact Hpos | lra]. }
      lra.
    + apply np_maxQ_in in Hm. apply in_map_iff in Hm as ([[i' j'] k'] & E & Hin).
      rewrite Hshape in Hin. apply indices_In in Hin as (Hi & Hj & Hk).
      exists i', j', k'. repeat split; try assumption.
      cbn in E. rewrite E. exact Hm0.
  - intros (Htol & i & j & k & Hi & Hj & Hk & Hnz).
    assert (Hidx : In (i, j, k) (indices (shape f))).
    { rewrite Hshape. apply indices_In. repeat split; assumption. }
    pose proof (in_map (fun x => Cabs (at_index f x)) _ _ Hidx) as Hin.
    cbn in Hin.
    destruct (Convergence.np_maxQ
                (map (fun x => Cabs (at_index f x)) (indices (shape f))))
      as [m | e] eqn:Hm.
    + apply (bounding_box_exists Cabs f tol m Hm); [| exact Htol].
      pose proof (np_maxQ_ge _ _ _ Hm Hin) as Hle.
      pose proof (Hnonneg (data f i j k)) as H0.
      intros Hm0. apply Hnz. lra.
    + destruct (map _ _); [destruct Hin | discriminate Hm].
Qed.

Lemma bounding_box_returns_iff_witness :
  (forall z, (0 <= Demo.Cabs z)%Q) /\
  shape Demo.ramp = (2, 2, 2) /\
  ((exists b, Convergence.bounding_box Demo.Cabs Demo.ramp (1 # 2) = Ok b) <->
   ((1 # 2) < 1)%Q /\
   exists i j k, i < 2 /\ j < 2 /\ k < 2 /\
     ~ (Demo.Cabs (data Demo.ramp i j k) == 0)%Q).
Proof.
  assert (Hn : forall z, (0 <= Demo.Cabs z)%Q)
    by (intros z; apply Qabs_nonneg).
  assert (Hs : shape Demo.ramp = (2, 2, 2)) by reflexivity.
  split; [exact Hn | split; [exact Hs |]].
  exact (proj1 (bounding_box_returns_iff Demo.Cabs Hn Demo.ramp (1 # 2)
                  2 2 2 Hs)).
Defined.

(** ** What [restrict_domain] returns *)

(** A call of [restrict_domain] that returns has read the source [f], found
    its box [b], and allocated one new array [P_trim] of the shape of the
    grid; it returns the coordinates of the grid at the extreme [x] and [y]
    indices of the box.  [P_trim] copies the source on the half-open slice
    and is zero at every other voxel; when the box is one voxel thick along
    some axis, [P_trim] is zero everywhere. *)
Theorem restrict_domain_result
    (Cabs : C -> Q) (f_rhs : loc) (tol : Q) (r : grid) (h h' : heap)
    (xMin xMax yMin yMax : Q) (P_trim : loc)
    (Hrun : Convergence.restrict_domain Cabs f_rhs tol r h
            = Ok ((xMin, xMax, yMin, yMax, P_trim), h')) :
  exists f b t,
    h !! f_rhs = Some f /\
    Convergence.bounding_box Cabs f tol = Ok b /\
    P_trim = length h /\ h' = h ++ [t] /\ shape t = gshape r /\
    xMin = coords r (Convergence.min_x_idx b) 0 0 0 /\
    xMax = coords r (Convergence.max_x_idx b) 0 0 0 /\
    yMin = coords r 0 (Convergence.min_y_idx b) 0 1 /\
    yMax = coords r 0 (Convergence.max_y_idx b) 0 1 /\
    (forall i j k,
       Convergence.min_x_idx b <= i < Convergence.max_x_idx b ->
       Convergence.min_y_idx b <= j < Convergence.max_y_idx b ->
       Convergence.min_z_idx b <= k < Convergence.max_z_idx b ->
       data t i j k = data f i j k) /\
    (forall i j k,
       data t i j k <> Czero ->
       Convergence.min_x_idx b <= i < Convergence.max_x_idx b /\
       Convergence.min_y_idx b <= j < Convergence.max_y_idx b /\
       Convergence.min_z_idx b <= k < Convergence.max_z_idx b) /\
    (Convergence.min_x_idx b = Convergence.max_x_idx b \/
     Convergence.min_y_idx b = Convergence.max_y_idx b \/
     Convergence.min_z_idx b = Convergence.max_z_idx b ->
     forall i j k, data t i j k = Czero).
Proof.
  apply restrict_domain_Ok in Hrun as (f & b & Hf & Hb & Hres & ->).
  injection Hres as -> -> -> -> ->.
  exists f, b, (Convergence.slice_assign (zeros (gshape r)) f b).
  assert (Hslice : forall i j k,
             Convergence.in_slice b i j k = true <->
             Convergence.min_x_idx b <= i < Convergence.max_x_idx b /\
             Convergence.min_y_idx b <= j < Convergence.max_y_idx b /\
             Convergence.min_z_idx b <= k < Convergence.max_z_idx b).
  { intros i j k. unfold Convergence.in_slice.
    rewrite !andb_true_iff, !Nat.leb_le, !Nat.ltb_lt. lia. }
  repeat split; try assumption; try reflexivity.
  - intros i j k Hi Hj Hk. cbn.
    destruct (Convergence.in_slice b i j k) eqn:E; [reflexivity |].
    assert (Convergence.in_slice b i j k = true) by (apply Hslice; lia).
    congruence.
  - cbn in H.
    destruct (Convergence.in_slice b i j k) eqn:E; [| contradiction].
    apply Hslice in E. lia.
  - cbn in H.
    destruct (Convergence.in_slice b i j k) eqn:E; [| contradiction].
    apply Hslice in E. lia.
  - cbn in H.
    destruct (Convergence.in_slice b i j k) eqn:E; [| contradiction].
    apply Hslice in E. lia.
  - cbn in H.
    destruct (Convergence.in_slice b i j k) eqn:E; [| contradiction].
    apply Hslice in E. lia.
  - cbn in H.
    destruct (Convergence.in_slice b i j k) eqn:E; [| contradiction].
    apply Hslice in E. lia.
  - cbn in H.
    destruct (Convergence.in_slice b i j k) eqn:E; [| contradiction].
    apply Hslice in E. lia.
  - intros Hthin i j k. cbn.
    destruct (Convergence.in_slice b i j k) eqn:E; [| reflexivity].
    apply Hslice in E. lia.
Qed.

Lemma restrict_domain_result_witness :
  let r := Demo.lattice (2, 2, 2) 0.1 in
  exists out h' t,
    Convergence.restrict_domain Demo.Cabs 0 (1 # 2) r [Demo.ramp]
      = Ok (out, h') /\
    out.2 = 1 /\ h' = [Demo.ramp; t] /\ shape t = (2, 2, 2).
Proof.
  intros r.
  destruct (Convergence.restrict_domain Demo.Cabs 0 (1 # 2) r [Demo.ramp])
    as [[[[[[xMin xMax] yMin] yMax] P_trim] h'] | e] eqn:Hrun;
    [| vm_compute in Hrun; discriminate Hrun].
  destruct (restrict_domain_result Demo.Cabs 0 (1 # 2) r [Demo.ramp] h'
              xMin xMax yMin yMax P_trim Hrun)
    as (f & b & t & _ & _ & HP & Hh & Hs & _).
  exists (xMin, xMax, yMin, yMax, P_trim), h', t.
  repeat split; assumption.
Defined.

(** ** What the study computes *)

Section StudyResult.
Variable Cabs : C -> Q.
Variable r : grid.

Lemma study_turn_eq (f_rhs : loc) (mvp : ndarray -> ndarray) (tol : Q)
    (acc : Convergence.pickled) (h : heap) (f : ndarray) :
  h !! f_rhs = Some f ->
  Convergence.study_turn Cabs f_rhs mvp r tol acc h =
  match Convergence.bounding_box Cabs f tol with
  | Ok b =>
      Ok (Convergence.mkPickled
            (Convergence.line_harmonic acc ++
               [Derived.axis_line r (mvp (Derived.trimmed r f b))])
            (Convergence.xMinVals acc ++
               [coords r (Convergence.min_x_idx b) 0 0 0])
            (Convergence.xMaxVals acc ++
               [coords r (Convergence.max_x_idx b) 0 0 0])
            (Convergence.yMinVals acc ++
               [coords r 0 (Convergence.min_y_idx b) 0 1])
            (Convergence.yMaxVals acc ++
               [coords r 0 (Convergence.max_y_idx b) 0 1]),
          h ++ Derived.turn_objects r mvp f b)
  | Raise e => Raise e
  end.
Proof.
  intros Hf. unfold Convergence.study_turn.
  destruct (Convergence.bounding_box Cabs f tol) as [b | e] eqn:Hb.
  - unfold mbind at 1.
    rewrite (restrict_domain_run Cabs f_rhs tol r h f b Hf Hb).
    cbv beta iota zeta.
    unfold mbind, load, alloc, mret.
    rewrite lookup_last. cbv beta iota.
    rewrite lookup_last. cbv beta iota.
    rewrite lookup_last. cbv beta iota.
    unfold Derived.axis_line, Derived.turn_objects, Derived.trimmed.
    destruct (gshape r) as [[L M0] N].
    rewrite <- !app_assoc. reflexivity.
  - unfold mbind at 1.
    unfold Convergence.restrict_domain, mbind, load, lift.
    rewrite Hf, Hb. reflexivity.
Qed.

Lemma study_loop_eq (f_rhs : loc) (mvp : ndarray -> ndarray) (tols : list Q)
    (acc : Convergence.pickled) (h : heap) (f : ndarray) :
  h !! f_rhs = Some f ->
  Convergence.study_loop Cabs f_rhs mvp r tols acc h =
  match Derived.boxes Cabs f tols with
  | Ok bs =>
      let rec := Derived.study_record r mvp f bs in
      Ok (Convergence.mkPickled
            (Convergence.line_harmonic acc ++ Convergence.line_harmonic rec)
            (Convergence.xMinVals acc ++ Convergence.xMinVals rec)
            (Convergence.xMaxVals acc ++ Convergence.xMaxVals rec)
            (Convergence.yMinVals acc ++ Convergence.yMinVals rec)
            (Convergence.yMaxVals acc ++ Convergence.yMaxVals rec),
          h ++ flat_map (Derived.turn_objects r mvp f) bs)
  | Raise e => Raise e
  end.
Proof.
  revert acc h. induction tols as [| tol tols IH]; intros acc h Hf.
  - cbn. unfold mret. rewrite !app_nil_r. destruct acc; reflexivity.
  - cbn [Convergence.study_loop Derived.boxes].
    unfold mbind at 1. rewrite (study_turn_eq f_rhs mvp tol acc h f Hf).
    destruct (Convergence.bounding_box Cabs f tol) as [b | e];
      cbn [rbind]; [| reflexivity].
    rewrite IH by (apply lookup_app_l_Some; exact Hf).
    destruct (Derived.boxes Cabs f tols) as [bs | e]; cbn [rbind];
      [| reflexivity].
    cbn. rewrite <- !app_assoc. reflexivity.
Qed.



End StudyResult.

Lemma convergence_domain_size_eq_boxes
    (Cabs : C -> Q) (TOL : list Q) (f_rhs : loc) (mvp : ndarray -> ndarray)
    (r : grid) (h : heap) (f : ndarray) :
  h !! f_rhs = Some f ->
  Convergence.convergence_domain_size Cabs TOL f_rhs mvp r h =
  match Derived.boxes Cabs f TOL with
  | Ok bs =>
      Ok (Derived.study_record r mvp f bs,
          h ++ flat_map (Derived.turn_objects r mvp f) bs)
  | Raise e => Raise e
  end.
Proof.
  intros Hf. unfold Convergence.convergence_domain_size.
  rewrite (study_loop_eq Cabs r f_rhs mvp TOL Convergence.empty_pickled h f Hf).
  destruct (Derived.boxes Cabs f TOL); reflexivity.
Qed.

(** The study is a function of the values of the source term: for each
    tolerance, in order, it records the grid coordinates of the box and the
    on-axis line of the volume potential of the trimmed source, and leaves
    three new arrays in the store; it stops with the exception of the first
    tolerance that has no box. *)
Theorem convergence_domain_size_result
    (Cabs : C -> Q) (TOL : list Q) (f_rhs : loc) (mvp : ndarray -> ndarray)
    (r : grid) (h : heap) (f : ndarray) (Hf : h !! f_rhs = Some f) :
  Convergence.convergence_domain_size Cabs TOL f_rhs mvp r h =
  match Derived.boxes Cabs f TOL with
  | Ok bs =>
      Ok (Derived.study_record r mvp f bs,
          h ++ flat_map (Derived.turn_objects r mvp f) bs)
  | Raise e => Raise e
  end.
Proof. apply convergence_domain_size_eq_boxes. exact Hf. Qed.

Lemma convergence_domain_size_result_witness :
  let r := Demo.lattice (2, 2, 2) 0.1 in
  [Demo.ramp] !! 0 = Some Demo.ramp /\
  exists res h',
    Convergence.convergence_domain_size Demo.Cabs Demo.TOL 0 (Demo.mvp 1) r
      [Demo.ramp] = Ok (res, h') /\
    Forall2 Qeq (Convergence.xMinVals res) [0.05; 0.05]%Q /\
    Forall2 Qeq (Convergence.xMaxVals res) [0.15; 0.15]%Q /\
    length h' = 7.
Proof.
  intros r. split; [reflexivity |].
  rewrite (convergence_domain_size_result Demo.Cabs Demo.TOL 0 (Demo.mvp 1) r
             [Demo.ramp] Demo.ramp eq_refl).
  assert (Hb : Derived.boxes Demo.Cabs Demo.ramp Demo.TOL
               = Ok [Convergence.mkBox 0 1 0 1 1 1; Convergence.mkBox 0 1 0 1 0 1])
    by reflexivity.
  rewrite Hb. eexists. eexists. split; [reflexivity |].
  split; [repeat constructor |]. split; [repeat constructor | reflexivity].
Defined.




(** ** What a turn of the domain-convergence loop writes *)

Section TurnEffect.
Variable Cabs : C -> Q.
Variable TOL : list Q.
Variable mvp_volume_potential : nat -> ndarray -> ndarray.
Variable r : grid.
Variables beta omega rho c : Q.

Lemma load_all_holds (ls : list loc) (h h' : heap) (vs : list ndarray) :
  load_all ls h = Ok (vs, h') -> Derived.holds h ls vs.
Proof.
  revert vs h'. induction ls as [| l ls IH]; intros vs h'; cbn.
  - intros H. apply mret_Ok in H as [-> _]. constructor.
  - intros H.
    apply mbind_Ok in H as (a & h1 & Hl & H). apply load_Ok in Hl as [Hl ->].
    apply mbind_Ok in H as (rest & h2 & Hr & H).
    pose proof (load_all_Ok _ _ _ _ Hr) as ->.
    apply mret_Ok in H as [-> _].
    constructor; [exact Hl | eapply IH, Hr].
Qed.

(** The source stage: which array [xIn] and [xInVec] hold afterwards. *)
Lemma source_stage_values (i_harm : nat) (e e1 : Convergence.env)
    (h h1 : heap) :
  Convergence.source_stage beta omega rho c i_harm e h = Ok (e1, h1) ->
  exists Ps x xv v extra,
    Derived.holds h (Convergence.P e) Ps /\
    Convergence.xIn e1 = Some x /\ Convergence.xInVec e1 = Some xv /\
    Convergence.P e1 = Convergence.P e /\
    h1 !! x = Some v /\ h1 !! xv = Some v /\ h1 = h ++ extra /\
    ((Convergence.xIn_ladder beta omega rho c i_harm Ps = Assigned v /\
      x = length h) \/
     (Convergence.xIn_ladder beta omega rho c i_harm Ps = Fallthrough /\
      Convergence.xIn e = Some x /\ h !! x = Some v)).
Proof.
  unfold Convergence.source_stage. intros H.
  apply mbind_Ok in H as (Ps & h0 & HPs & H).
  pose proof (load_all_holds _ _ _ _ HPs) as Hholds.
  apply load_all_Ok in HPs as ->.
  apply mbind_Ok in H as (xIn' & h0 & Hlad & H).
  destruct (Convergence.xIn_ladder beta omega rho c i_harm Ps)
    as [x0 | | ex] eqn:Elad.
  - apply mbind_Ok in Hlad as (l & h2 & Hl & Hlad).
    apply alloc_Ok in Hl as [-> ->]. apply mret_Ok in Hlad as [-> ->].
    apply mbind_Ok in H as (x & h2 & Hx & H).
    apply lookup_name_Ok in Hx as [[= <-] ->].
    apply mbind_Ok in H as (v & h2 & Hv & H). apply load_Ok in Hv as [Hv ->].
    rewrite lookup_last in Hv. injection Hv as <-.
    apply mbind_Ok in H as (xv & h2 & Hxv & H). apply alloc_Ok in Hxv as [-> ->].
    apply mret_Ok in H as [-> ->].
    exists Ps, (length h), (length (h ++ [x0])), x0, [x0; x0]. cbn.
    repeat split; try assumption.
    + apply lookup_app_l_Some, lookup_last.
    + apply lookup_last.
    + rewrite <- app_assoc. reflexivity.
    + left. split; [exact Elad | reflexivity].
  - apply mret_Ok in Hlad as [-> ->].
    apply mbind_Ok in H as (x & h2 & Hx & H).
    apply lookup_name_Ok in Hx as [Hx ->].
    apply mbind_Ok in H as (v & h2 & Hv & H). apply load_Ok in Hv as [Hv ->].
    apply mbind_Ok in H as (xv & h2 & Hxv & H). apply alloc_Ok in Hxv as [-> ->].
    apply mret_Ok in H as [-> ->].
    exists Ps, x, (length h), v, [v]. cbn.
    repeat split; try assumption.
    + apply lookup_app_l_Some. exact Hv.
    + apply lookup_last.
    + right. repeat split; assumption.
  - discriminate Hlad.
Qed.

(** A turn that completes rewrites plane [i_harm] of [P], appends to the
    store, and does nothing else to it. *)
Lemma harmonic_step_effect (i_harm : nat) (e e' : Convergence.env)
    (h h' : heap) :
  Forall (fun p => p < length h) (Convergence.P e) ->
  Convergence.harmonic_step Cabs TOL mvp_volume_potential r
    beta omega rho c i_harm e h = Ok (e', h') ->
  exists Ps p v extra,
    Derived.holds h (Convergence.P e) Ps /\
    Convergence.P e !! i_harm = Some p /\
    Convergence.P e' = Convergence.P e /\
    h' = <[p := mvp_volume_potential i_harm v]> h ++ extra /\
    (Convergence.xIn_ladder beta omega rho c i_harm Ps = Assigned v \/
     Convergence.xIn_ladder beta omega rho c i_harm Ps = Fallthrough /\
     exists x, Convergence.xIn e = Some x /\ h !! x = Some v).
Proof.
  intros Hwf Hstep. unfold Convergence.harmonic_step in Hstep.
  apply mbind_Ok in Hstep as (e1 & h1 & Hsrc & Hstep).
  apply mbind_Ok in Hstep as (x' & h2 & Hx & Hstep).
  apply lookup_name_Ok in Hx as [Hx ->].
  apply mbind_Ok in Hstep as (res & h2 & Hstudy & Hsolve).
  destruct (convergence_domain_size_frame _ _ _ _ _ _ _ _ Hstudy) as [objs ->].
  destruct (source_stage_values _ _ _ _ _ Hsrc)
    as (Ps & x & xv & v & extra & Hholds & HxIn & HxInVec & HP & Hvx & Hvxv &
        Hh1 & Hlad).
  assert (Hwf1 : Forall (fun p => p < length h1) (Convergence.P e1)).
  { rewrite HP, Hh1. eapply Forall_impl; [exact Hwf |].
    intros p Hp. cbn in *. rewrite length_app. lia. }
  destruct (solve_stage_frame mvp_volume_potential i_harm e1 e' h1 objs h'
              xv v Hwf1 HxInVec Hvxv Hsolve)
    as (p & HPi & -> & -> & _ & _).
  rewrite HP in HPi.
  assert (Hlt : p < length h).
  { rewrite Forall_forall in Hwf. apply Hwf.
    eapply list_elem_of_lookup_2, HPi. }
  exists Ps, p, v, (extra ++ objs).
  repeat split; try assumption.
  - rewrite Hh1, insert_app_l by exact Hlt. rewrite <- app_assoc. reflexivity.
  - destruct Hlad as [[Hlad _] | (Hlad & Hxe & Hhx)];
      [left; exact Hlad | right; split; [exact Hlad | eauto]].
Qed.

Lemma harmonic_loop_app (l1 l2 : list nat) (e e' : Convergence.env)
    (h h' : heap) :
  Convergence.harmonic_loop Cabs TOL mvp_volume_potential r
    beta omega rho c (l1 ++ l2) e h = Ok (e', h') <->
  exists e1 h1,
    Convergence.harmonic_loop Cabs TOL mvp_volume_potential r
      beta omega rho c l1 e h = Ok (e1, h1) /\
    Convergence.harmonic_loop Cabs TOL mvp_volume_potential r
      beta omega rho c l2 e1 h1 = Ok (e', h').
Proof.
  revert e h. induction l1 as [| i l1 IH]; intros e h; cbn.
  - split.
    + intros H. exists e, h. split; [reflexivity | exact H].
    + intros (e1 & h1 & [= <- <-] & H). exact H.
  - split.
    + intros H. apply mbind_Ok in H as (e0 & h0 & Hstep & H).
      apply IH in H as (e1 & h1 & H1 & H2).
      exists e1, h1. split; [| exact H2].
      unfold mbind. rewrite Hstep. exact H1.
    + intros (e1 & h1 & H1 & H2).
      apply mbind_Ok in H1 as (e0 & h0 & Hstep & H1).
      unfold mbind. rewrite Hstep. apply IH. eauto.
Qed.

End TurnEffect.

Lemma harmonic_loop_frame
    (Cabs : C -> Q) (TOL : list Q)
    (mvp_volume_potential : nat -> ndarray -> ndarray) (r : grid)
    (beta omega rho c : Q)
    (orders : list nat) (e e' : Convergence.env) (h h' : heap)
    (Hwf : Forall (fun p => p < length h) (Convergence.P e))
    (Hdup : NoDup (Convergence.P e))
    (Hloop : Convergence.harmonic_loop Cabs TOL mvp_volume_potential r
               beta omega rho c orders e h = Ok (e', h')) :
  Convergence.P e' = Convergence.P e /\
  length h <= length h' /\
  (forall j p, Convergence.P e !! j = Some p -> ~ In j orders ->
               h' !! p = h !! p).
Proof.
  revert e h Hwf Hdup Hloop.
  induction orders as [| i orders IH]; intros e h Hwf Hdup Hloop.
  - cbn in Hloop. apply mret_Ok in Hloop as [-> ->].
    repeat split; reflexivity || lia.
  - cbn in Hloop. apply mbind_Ok in Hloop as (e1 & h1 & Hstep & Hloop).
    destruct (harmonic_step_effect _ _ _ _ _ _ _ _ _ _ _ _ _ Hwf Hstep)
      as (Ps & p & v & extra & _ & HPi & HP & Hh1 & _).
    assert (Hlen : length h <= length h1).
    { rewrite Hh1, length_app, length_insert. lia. }
    assert (Hwf1 : Forall (fun q => q < length h1) (Convergence.P e1)).
    { rewrite HP. eapply Forall_impl; [exact Hwf |]. intros q Hq. cbn in *. lia. }
    rewrite <- HP in Hdup.
    destruct (IH e1 h1 Hwf1 Hdup Hloop) as (HP' & Hlen' & Hframe).
    rewrite HP in HP', Hdup, Hframe.
    repeat split; [exact HP' | lia |].
    intros j q Hq Hnot.
    rewrite (Hframe j q Hq) by (intros Hin; apply Hnot; right; exact Hin).
    assert (Hqlt : q < length h).
    { rewrite Forall_forall in Hwf. apply Hwf.
      eapply list_elem_of_lookup_2, Hq. }
    assert (Hne : p <> q).
    { intros ->. apply Hnot. left.
      eapply NoDup_lookup; eassumption. }
    rewrite Hh1, lookup_app_l by (rewrite length_insert; exact Hqlt).
    apply list_lookup_insert_ne. exact Hne.
Qed.

(** The loop over the harmonics leaves the names of the planes of [P] as
    they are, never shrinks the store, and rewrites only the planes of the
    orders it runs through: with [range(1, n_harm)], the incident field
    [P[0]] and every plane from [n_harm] on keep their values. *)
Theorem harmonic_loop_writes_only_its_orders
    (Cabs : C -> Q) (TOL : list Q)
    (mvp_volume_potential : nat -> ndarray -> ndarray) (r : grid)
    (beta omega rho c : Q)
    (orders : list nat) (e e' : Convergence.env) (h h' : heap)
    (Hwf : Forall (fun p => p < length h) (Convergence.P e))
    (Hdup : NoDup (Convergence.P e))
    (Hloop : Convergence.harmonic_loop Cabs TOL mvp_volume_potential r
               beta omega rho c orders e h = Ok (e', h')) :
  Convergence.P e' = Convergence.P e /\
  length h <= length h' /\
  (forall j p, Convergence.P e !! j = Some p -> ~ In j orders ->
               h' !! p = h !! p).
Proof. eapply harmonic_loop_frame; eassumption. Qed.

Lemma harmonic_loop_writes_only_its_orders_witness :
  let r := Demo.lattice (2, 1, 1) 0.1 in
  let e := Demo.env0 3 in
  let h := Demo.store0 3 (Demo.const (2, 1, 1) 1) in
  Forall (fun p => p < length h) (Convergence.P e) /\
  NoDup (Convergence.P e) /\
  exists e' h',
    Convergence.cascade Demo.Cabs Demo.TOL Demo.mvp r 1 1 1 1 3 e h
      = Ok (e', h') /\
    Convergence.P e' = Convergence.P e /\
    h' !! 0 = Some (Demo.const (2, 1, 1) 1).
Proof.
  intros r e h.
  assert (Hwf : Forall (fun p => p < length h) (Convergence.P e))
    by (repeat constructor).
  assert (Hdup : NoDup (Convergence.P e)).
  { exact (NoDup_seq 0 3). }
  split; [exact Hwf | split; [exact Hdup |]].
  destruct (Convergence.cascade Demo.Cabs Demo.TOL Demo.mvp r 1 1 1 1 3 e h)
    as [[e' h'] | ex] eqn:Hrun; [| vm_compute in Hrun; discriminate Hrun].
  destruct (harmonic_loop_writes_only_its_orders Demo.Cabs Demo.TOL Demo.mvp r
              1 1 1 1 (seq 1 (3 - 1)) e e' h h' Hwf Hdup Hrun)
    as (HP & _ & Hframe).
  exists e', h'. split; [reflexivity | split; [exact HP |]].
  rewrite (Hframe 0 0 eq_refl); [reflexivity |].
  cbn. intros [H | [H | []]]; discriminate H.
Defined.

(** ** The recurrence the domain-convergence loop computes *)

Section Recurrence.
Variable Cabs : C -> Q.
Variable TOL : list Q.
Variable mvp_volume_potential : nat -> ndarray -> ndarray.
Variable r : grid.
Variables beta omega rho c : Q.

Lemma holds_inj (h : heap) (ls : list loc) (vs1 vs2 : list ndarray) :
  Derived.holds h ls vs1 -> Derived.holds h ls vs2 -> vs1 = vs2.
Proof.
  unfold Derived.holds. intros H1. revert vs2.
  induction H1 as [| l a ls vs1 Ha _ IH]; intros vs2 H2;
    inversion H2 as [| l' b ls' vs2' Hb Hrest]; subst; [reflexivity |].
  f_equal; [congruence | apply IH, Hrest].
Qed.

(** Rewriting one plane changes the value of that plane only. *)
Lemma holds_insert (h extra : heap) (ls : list loc) (vs : list ndarray)
    (i : nat) (p : loc) (a : ndarray) :
  Derived.holds h ls vs -> NoDup ls -> ls !! i = Some p ->
  Derived.holds (<[p := a]> h ++ extra) ls (<[i := a]> vs).
Proof.
  unfold Derived.holds. intros Hh Hdup Hp.
  apply Forall2_same_length_lookup in Hh as [Hlen Hh].
  apply Forall2_same_length_lookup. split; [rewrite length_insert; exact Hlen |].
  intros j q b Hq Hb.
  assert (Hqlt : exists old, h !! q = Some old).
  { destruct (lookup_lt_is_Some_2 vs j) as [old Hold].
    - rewrite <- Hlen. eapply lookup_lt_Some, Hq.
    - exists old. eapply Hh; eassumption. }
  destruct Hqlt as [old Hold].
  assert (Hlt : q < length h) by (eapply lookup_lt_Some, Hold).
  rewrite lookup_app_l by (rewrite length_insert; exact Hlt).
  destruct (Nat.eq_dec i j) as [-> | Hne].
  - assert (q = p) by congruence. subst q.
    rewrite list_lookup_insert_eq in Hb
      by (rewrite <- Hlen; eapply lookup_lt_Some, Hq).
    rewrite list_lookup_insert_eq by exact Hlt. exact Hb.
  - rewrite list_lookup_insert_ne in Hb by exact Hne.
    assert (Hpq : p <> q).
    { intros ->. apply Hne. eapply NoDup_lookup; eassumption. }
    rewrite list_lookup_insert_ne by exact Hpq.
    eapply Hh; eassumption.
Qed.

(** The branch of order [i] reads the planes below [i] only. *)
Lemma xIn_ladder_insert_ge (i j : nat) (a : ndarray) (Ps : list ndarray) :
  i <= j ->
  Convergence.xIn_ladder beta omega rho c i (<[j := a]> Ps) =
  Convergence.xIn_ladder beta omega rho c i Ps.
Proof.
  intros Hij.
  do 5 (destruct i as [| i]; [unfold Convergence.xIn_ladder, getitem;
        rewrite ?list_lookup_insert_ne by lia; reflexivity |]).
  reflexivity.
Qed.

Lemma xIn_ladder_not_Fallthrough (i : nat) (Ps : list ndarray) :
  1 <= i <= 4 ->
  Convergence.xIn_ladder beta omega rho c i Ps <> Fallthrough.
Proof.
  intros Hi.
  assert (Hc : i = 1 \/ i = 2 \/ i = 3 \/ i = 4) by lia.
  destruct Hc as [-> | [-> | [-> | ->]]]; cbn;
    unfold getitem;
    repeat (match goal with
            | |- context [?l !! ?n] => destruct (l !! n); cbn
            end); discriminate.
Qed.

Lemma harmonic_loop_recurrence (k : nat) (e e' : Convergence.env)
    (h h' : heap) :
  k <= 4 ->
  Forall (fun p => p < length h) (Convergence.P e) ->
  NoDup (Convergence.P e) ->
  Convergence.harmonic_loop Cabs TOL mvp_volume_potential r
    beta omega rho c (seq 1 k) e h = Ok (e', h') ->
  Convergence.P e' = Convergence.P e /\
  Forall (fun p => p < length h') (Convergence.P e) /\
  exists Ps,
    Derived.holds h' (Convergence.P e) Ps /\
    forall i, 1 <= i <= k ->
      exists x,
        Convergence.xIn_ladder beta omega rho c i Ps = Assigned x /\
        Ps !! i = Some (mvp_volume_potential i x).
Proof.
  intros Hk Hwf Hdup. revert e' h'.
  induction k as [| k IH]; intros e' h' Hloop.
  - cbn in Hloop. apply mret_Ok in Hloop as [-> ->].
    split; [reflexivity | split; [exact Hwf |]].
    assert (Hall : exists Ps, Derived.holds h (Convergence.P e) Ps).
    { clear Hdup. induction Hwf as [| p ls Hp _ IHl].
      - exists []. constructor.
      - destruct IHl as [Ps HPs].
        destruct (lookup_lt_is_Some_2 h p Hp) as [a Ha].
        exists (a :: Ps). constructor; assumption. }
    destruct Hall as [Ps HPs]. exists Ps. split; [exact HPs |].
    intros i Hi. lia.
  - rewrite seq_S in Hloop.
    apply harmonic_loop_app in Hloop as (e1 & h1 & Hloop1 & Hlast).
    destruct (IH ltac:(lia) e1 h1 Hloop1) as (HP1 & Hwf1 & Ps1 & Hholds1 & Hrec).
    cbn in Hlast. apply mbind_Ok in Hlast as (e2 & h2 & Hstep & Hret).
    apply mret_Ok in Hret as [-> ->].
    rewrite <- HP1 in Hwf1.
    destruct (harmonic_step_effect _ _ _ _ _ _ _ _ _ _ _ _ _ Hwf1 Hstep)
      as (Ps & p & v & extra & Hholds & HPi & HP2 & Hh2 & Hlad).
    rewrite HP1 in Hholds, HPi, HP2, Hwf1.
    assert (Ps = Ps1) by (eapply holds_inj; eassumption). subst Ps.
    assert (Hv : Convergence.xIn_ladder beta omega rho c (1 + k) Ps1 = Assigned v).
    { destruct Hlad as [Hlad | [Hlad _]]; [exact Hlad |].
      exfalso. eapply (xIn_ladder_not_Fallthrough (1 + k)); [lia | exact Hlad]. }
    split; [exact HP2 | split].
    { rewrite Hh2. eapply Forall_impl; [exact Hwf1 |].
      intros q Hq. cbn in *. rewrite length_app, length_insert. lia. }
    exists (<[1 + k := mvp_volume_potential (1 + k) v]> Ps1).
    split.
    { rewrite Hh2. apply holds_insert; assumption. }
    intros i Hi.
    destruct (Nat.eq_dec i (1 + k)) as [-> | Hne].
    + exists v. split.
      * rewrite xIn_ladder_insert_ge by lia. exact Hv.
      * apply list_lookup_insert_eq.
        apply Forall2_length in Hholds1. rewrite <- Hholds1.
        eapply lookup_lt_Some, HPi.
    + destruct (Hrec i ltac:(lia)) as (x & Hx & Hxi).
      exists x. split.
      * rewrite xIn_ladder_insert_ge by lia. exact Hx.
      * rewrite list_lookup_insert_ne by lia. exact Hxi.
Qed.

End Recurrence.

(** A run of the domain-convergence script with at most five harmonics that
    completes leaves in [P] fields that satisfy the recurrence of the
    ladder: for every order [i] from 1 to [n_harm - 1], plane [i] is the
    volume potential, at harmonic [i], of the source term that the branch of
    order [i] builds from the final planes below [i]. *)
Theorem cascade_computes_recurrence
    (Cabs : C -> Q) (TOL : list Q)
    (mvp_volume_potential : nat -> ndarray -> ndarray) (r : grid)
    (beta omega rho c : Q)
    (n_harm : nat) (e e' : Convergence.env) (h h' : heap)
    (Hn : n_harm <= 5)
    (Hwf : Forall (fun p => p < length h) (Convergence.P e))
    (Hdup : NoDup (Convergence.P e))
    (Hrun : Convergence.cascade Cabs TOL mvp_volume_potential r
              beta omega rho c n_harm e h = Ok (e', h')) :
  exists Ps,
    Derived.holds h' (Convergence.P e') Ps /\
    (forall p0 a, Convergence.P e !! 0 = Some p0 -> h !! p0 = Some a ->
                  Ps !! 0 = Some a) /\
    forall i, 1 <= i < n_harm ->
      exists x,
        Convergence.xIn_ladder beta omega rho c i Ps = Assigned x /\
        Ps !! i = Some (mvp_volume_potential i x).
Proof.
  unfold Convergence.cascade in Hrun.
  destruct (harmonic_loop_recurrence Cabs TOL mvp_volume_potential r
              beta omega rho c (n_harm - 1) e e' h h' ltac:(lia) Hwf Hdup Hrun)
    as (HP & _ & Ps & Hholds & Hrec).
  destruct (harmonic_loop_frame Cabs TOL mvp_volume_potential r
              beta omega rho c _ e e' h h' Hwf Hdup Hrun)
    as (_ & _ & Hframe).
  exists Ps. rewrite HP. split; [exact Hholds | split].
  - intros p0 a Hp0 Ha.
    destruct (Forall2_lookup_l _ _ _ _ _ Hholds Hp0) as (b & Hb & Hhb).
    rewrite (Hframe 0 p0 Hp0) in Hhb
      by (intros Hin; apply in_seq in Hin; lia).
    congruence.
  - intros i Hi. apply Hrec. lia.
Qed.

Lemma cascade_computes_recurrence_witness :
  let r := Demo.lattice (2, 1, 1) 0.1 in
  let e := Demo.env0 3 in
  let p := Demo.const (2, 1, 1) 1 in
  let h := Demo.store0 3 p in
  3 <= 5 /\
  Forall (fun q => q < length h) (Convergence.P e) /\
  NoDup (Convergence.P e) /\
  exists e' h' Ps x,
    Convergence.cascade Demo.Cabs Demo.TOL Demo.mvp r 1 1 1 1 3 e h
      = Ok (e', h') /\
    Derived.holds h' (Convergence.P e') Ps /\
    Ps !! 0 = Some p /\
    Convergence.xIn_ladder 1 1 1 1 2 Ps = Assigned x /\
    Ps !! 2 = Some (Demo.mvp 2 x).
Proof.
  intros r e p h.
  assert (Hwf : Forall (fun q => q < length h) (Convergence.P e))
    by (repeat constructor).
  assert (Hdup : NoDup (Convergence.P e)) by exact (NoDup_seq 0 3).
  split; [lia | split; [exact Hwf | split; [exact Hdup |]]].
  destruct (Convergence.cascade Demo.Cabs Demo.TOL Demo.mvp r 1 1 1 1 3 e h)
    as [[e' h'] | ex] eqn:Hrun; [| vm_compute in Hrun; discriminate Hrun].
  destruct (cascade_computes_recurrence Demo.Cabs Demo.TOL Demo.mvp r
              1 1 1 1 3 e e' h h' ltac:(lia) Hwf Hdup Hrun)
    as (Ps & Hholds & H0 & Hrec).
  destruct (Hrec 2 ltac:(lia)) as (x & Hx & Hx2).
  exists e', h', Ps, x.
  repeat split; try assumption.
  apply (H0 0 p); reflexivity.
Defined.

(** ** The loop of the interpolation script *)

Lemma log2_succ_refines (k : nat) :
  Nat.log2 (S k) =
  if Interpolation.refines (S k) then S (Nat.log2 k) else Nat.log2 k.
Proof.
  destruct k as [| k]; [reflexivity |].
  destruct (Interpolation.refines (S (S k))) eqn:E.
  - apply Nat.log2_eq_succ_iff_pow2; [lia |].
    unfold Interpolation.refines in E.
    apply andb_true_iff in E as [_ E].
    apply is_power_of_two_spec in E as (z & Hz & Hpow); [| lia].
    exists (Z.to_nat z). apply Nat2Z.inj.
    rewrite Hpow, Nat2Z.inj_pow, Z2Nat.id by lia. reflexivity.
  - destruct (Nat.log2_succ_or (S k)) as [Hs | Hs]; [| exact Hs].
    exfalso.
    apply Nat.log2_eq_succ_iff_pow2 in Hs as [b Hb]; [| lia].
    assert (Ht : Interpolation.refines (S (S k)) = true); [| congruence].
    unfold Interpolation.refines. apply andb_true_iff. split; [reflexivity |].
    apply is_power_of_two_spec; [lia |].
    exists (Z.of_nat b). split; [lia |].
    rewrite Hb, Nat2Z.inj_pow. reflexivity.
Qed.

Section InterpolationLoop.
Context {F G : Type} `{ArrayOps F}.
Variable rf : G -> G.
Variable mvp_volume_potential : nat -> G -> F -> F.
Variable itp : G * F -> G -> F.
Variables beta omega rho c : Q.

(** A refinement and an interpolator that raise nothing. *)
Let refine : G -> result G := fun g => Ok (rf g).
Let interpolate : G * F -> G -> result F := fun f pts => Ok (itp f pts).

Let step := Interpolation.harmonic_step refine mvp_volume_potential
              interpolate beta omega rho c.
Let loop := Interpolation.harmonic_loop refine mvp_volume_potential
              interpolate beta omega rho c.

Let between_turns := Derived.between_turns (F := F) rf.

Lemma getitem_lt {A : Type} (l : list A) (n : nat) :
  n < length l -> exists a, getitem l n = Ok a.
Proof.
  intros Hlt. unfold getitem.
  destruct (lookup_lt_is_Some_2 l n Hlt) as [a Ha]. rewrite Ha. eauto.
Qed.

Ltac get l n :=
  let a := fresh "a" in
  let Ha := fresh "Ha" in
  destruct (getitem_lt l n ltac:(lia)) as [a Ha]; rewrite Ha; cbn [rbind].

(** Under the invariant the ladder of order [k + 1] binds [xIn] or leaves a
    bound [xIn] as it is. *)
Lemma ladder_binds (k : nat) (Ps : list F) (funs : list (G * F))
    (pts : option G) (xIn : option F) :
  length Ps = S k -> length funs = S k ->
  (2 <= S k -> exists g, pts = Some g) ->
  (1 <= k -> exists x, xIn = Some x) ->
  exists x,
    match Interpolation.xIn_ladder interpolate beta omega rho c (S k) Ps
            funs pts with
    | Assigned a => Ok (Some a)
    | Fallthrough => Ok xIn
    | Raised e => Raise e
    end = Ok (Some x).
Proof.
  intros HP Hf Hpts Hx.
  destruct k as [| [| [| [| [| [| k]]]]]];
    cbn [Interpolation.xIn_ladder].
  - get Ps 0. eexists. reflexivity.
  - destruct Hpts as [g ->]; [lia |].
    get funs 0. cbn. get funs 1. eexists. reflexivity.
  - destruct Hpts as [g ->]; [lia |].
    get funs 0. cbn. get funs 1. get funs 2. eexists. reflexivity.
  - get Ps 0. get Ps 3. get Ps 1. get Ps 2. eexists. reflexivity.
  - get Ps 0. get Ps 4. get Ps 1. get Ps 3. get Ps 2. eexists. reflexivity.
  - get Ps 0. get Ps 5. get Ps 1. get Ps 4. get Ps 2. get Ps 3.
    eexists. reflexivity.
  - destruct Hx as [x ->]; [lia |]. eexists. reflexivity.
Qed.

Lemma step_between_turns (r0 : G) (k : nat) (s : Interpolation.state) :
  between_turns r0 k s ->
  exists s', step (S k) s = Ok s' /\ between_turns r0 (S k) s'.
Proof.
  intros (Hcur & HP & Hfuns & Hpts & Hx).
  assert (Hlenf : length (Interpolation.interp_funs s) = S k).
  { rewrite <- HP, <- Hfuns, length_map. reflexivity. }
  unfold step, Interpolation.harmonic_step, Interpolation.refinement_stage.
  pose proof (log2_succ_refines k) as Hlog.
  destruct (Interpolation.refines (S k)) eqn:Eref; cbn [rbind refine].
  - unfold Interpolation.source_stage. cbn [Interpolation.P
      Interpolation.interp_funs Interpolation.points2 Interpolation.xIn
      Interpolation.cur].
    destruct (ladder_binds k (Interpolation.P s) (Interpolation.interp_funs s)
                (Some (rf (Interpolation.cur s))) (Interpolation.xIn s)
                HP Hlenf ltac:(eauto) Hx) as [x Hlad].
    rewrite Hlad. cbn [rbind].
    unfold Interpolation.solve_stage. cbn [Interpolation.P
      Interpolation.interp_funs Interpolation.points2 Interpolation.xIn
      Interpolation.cur Interpolation.name rbind].
    unfold getitem.
    rewrite (list_lookup_middle (Interpolation.P s) [] _ (S k))
      by (symmetry; exact HP).
    eexists. split; [reflexivity |].
    unfold between_turns, Derived.between_turns.
    cbn [Interpolation.P Interpolation.interp_funs Interpolation.points2
         Interpolation.xIn Interpolation.cur].
    split; [| split; [| split; [| split]]].
    + rewrite Hlog, Hcur. reflexivity.
    + rewrite length_app, HP. cbn. lia.
    + rewrite map_app, Hfuns. reflexivity.
    + intros _. reflexivity.
    + intros _. eauto.
  - unfold Interpolation.source_stage.
    assert (Hpts' : 2 <= S k -> exists g, Interpolation.points2 s = Some g).
    { intros Hk. exists (Interpolation.cur s). apply Hpts.
      destruct k as [| [| k]]; [lia | discriminate Eref | lia]. }
    destruct (ladder_binds k (Interpolation.P s) (Interpolation.interp_funs s)
                (Interpolation.points2 s) (Interpolation.xIn s)
                HP Hlenf Hpts' Hx) as [x Hlad].
    rewrite Hlad. cbn [rbind].
    unfold Interpolation.solve_stage. cbn [Interpolation.P
      Interpolation.interp_funs Interpolation.points2 Interpolation.xIn
      Interpolation.cur Interpolation.name rbind].
    unfold getitem.
    rewrite (list_lookup_middle (Interpolation.P s) [] _ (S k))
      by (symmetry; exact HP).
    eexists. split; [reflexivity |].
    unfold between_turns, Derived.between_turns.
    cbn [Interpolation.P Interpolation.interp_funs Interpolation.points2
         Interpolation.xIn Interpolation.cur].
    split; [| split; [| split; [| split]]].
    + rewrite Hlog, Hcur. reflexivity.
    + rewrite length_app, HP. cbn. lia.
    + rewrite map_app, Hfuns. reflexivity.
    + intros Hk. apply Hpts.
      destruct k as [| [| k]]; [lia | discriminate Eref | lia].
    + intros _. eauto.
Qed.

Lemma loop_between_turns (r0 : G) (n k : nat) (s : Interpolation.state) :
  between_turns r0 k s ->
  exists s', loop (seq (S k) n) s = Ok s' /\ between_turns r0 (k + n) s'.
Proof.
  revert k s. induction n as [| n IH]; intros k s Hinv.
  - exists s. rewrite Nat.add_0_r. split; [reflexivity | exact Hinv].
  - destruct (step_between_turns r0 k s Hinv) as (s1 & Hstep & Hinv1).
    destruct (IH (S k) s1 Hinv1) as (s' & Hloop & Hinv').
    exists s'. split.
    + unfold loop. cbn [seq Interpolation.harmonic_loop].
      fold step. rewrite Hstep. cbn [rbind]. exact Hloop.
    + replace (k + S n) with (S k + n) by lia. exact Hinv'.
Qed.

End InterpolationLoop.

(** Started on the incident field, the loop of the interpolation script
    raises no [IndexError] and no [NameError]: when the refinement and the
    interpolators raise nothing it completes for every [n_harm].  Afterwards
    the mesh has been refined [log2 (n_harm - 1)] times (rounded down), there
    is one field per harmonic, and interpolator [i] holds field [i]. *)
Theorem interpolation_cascade_completes
    {F G : Type} `{ArrayOps F} (rf : G -> G)
    (mvp_volume_potential : nat -> G -> F -> F) (itp : G * F -> G -> F)
    (beta omega rho c : Q) (n_harm : nat) (r0 : G) (p : F) :
  exists s,
    Interpolation.cascade (fun g => Ok (rf g)) mvp_volume_potential
      (fun f pts => Ok (itp f pts)) beta omega rho c n_harm
      (Interpolation.initial r0 p) = Ok s /\
    Interpolation.cur s = Nat.iter (Nat.log2 (n_harm - 1)) rf r0 /\
    length (Interpolation.P s) = S (n_harm - 1) /\
    map snd (Interpolation.interp_funs s) = Interpolation.P s.
Proof.
  assert (Hinit : Derived.between_turns rf r0 0 (Interpolation.initial r0 p)).
  { unfold Derived.between_turns. cbn.
    repeat split; try reflexivity; intros Hk; lia. }
  destruct (loop_between_turns rf mvp_volume_potential itp beta omega rho c
              r0 (n_harm - 1) 0 _ Hinit)
    as (s & Hloop & Hcur & HP & Hfuns & _).
  exists s. repeat split; assumption.
Qed.

(** ** The refinement block *)

Section RefineFacts.
Variable generatedomain : Q -> Q -> Q -> Q -> grid.

Lemma last_x_Ok (g : grid) :
  Derived.nonempty (gshape g) ->
  Interpolation.last_x g = Ok (coords g ((gshape g).1.1 - 1) 0 0 0).
Proof.
  unfold Derived.nonempty, Interpolation.last_x.
  destruct (gshape g) as [[L M] N]. cbn. intros (HL & HM & HN).
  destruct L, M, N; try lia. reflexivity.
Qed.

Lemma last_x_Raise (g : grid) :
  ~ Derived.nonempty (gshape g) -> Interpolation.last_x g = Raise IndexError.
Proof.
  unfold Derived.nonempty, Interpolation.last_x.
  destruct (gshape g) as [[L M] N]. cbn. intros Hne.
  destruct L, M, N; try reflexivity. exfalso. apply Hne. lia.
Qed.

Lemma nonempty_dec (s : shape3) :
  Derived.nonempty s \/ ~ Derived.nonempty s.
Proof.
  unfold Derived.nonempty. destruct s as [[L M] N]. cbn.
  destruct L, M, N; (left; lia) || (right; lia).
Qed.

Lemma refine_mesh_inv (m m' : Interpolation.mesh) :
  Interpolation.refine_mesh generatedomain m = Ok m' ->
  let r2 := generatedomain (Interpolation.dx m / 2)%Q (Interpolation.wx m / 2)%Q
              (Interpolation.wy m / 2)%Q (Interpolation.wy m / 2)%Q in
  exists r2_far r_far,
    Interpolation.last_x r2 = Ok r2_far /\
    Interpolation.last_x (Interpolation.r m) = Ok r_far /\
    m' = Interpolation.mkMesh
           (mkGrid (gshape r2)
              (fun i j k d =>
                 if d =? 0
                 then (coords r2 i j k 0 - r2_far + r_far
                       + - Interpolation.dx m / 2
                       - Interpolation.dx m / 2 / 2)%Q
                 else coords r2 i j k d))
           (Interpolation.dx m / 2)%Q (Interpolation.wx m / 2)%Q
           (Interpolation.wy m / 2)%Q (Interpolation.wy m / 2)%Q.
Proof.
  unfold Interpolation.refine_mesh. cbv zeta.
  destruct (Interpolation.last_x (generatedomain _ _ _ _)) as [r2_far |];
    cbn [rbind]; [| discriminate].
  destruct (Interpolation.last_x (Interpolation.r m)) as [r_far |];
    cbn [rbind]; [| discriminate].
  intros [= <-]. exists r2_far, r_far. repeat split; reflexivity.
Qed.

End RefineFacts.

(** The refinement block completes exactly when neither the mesh it
    generates nor the current mesh has an empty axis; otherwise reading the
    last [x] coordinate raises [IndexError], and it raises nothing else. *)
Theorem refine_mesh_returns_iff
    (generatedomain : Q -> Q -> Q -> Q -> grid) (m : Interpolation.mesh) :
  let r2 := generatedomain (Interpolation.dx m / 2)%Q (Interpolation.wx m / 2)%Q
              (Interpolation.wy m / 2)%Q (Interpolation.wy m / 2)%Q in
  ((exists m', Interpolation.refine_mesh generatedomain m = Ok m') <->
   Derived.nonempty (gshape r2) /\
   Derived.nonempty (gshape (Interpolation.r m))) /\
  (forall e, Interpolation.refine_mesh generatedomain m = Raise e ->
             e = IndexError).
Proof.
  intros r2. unfold Interpolation.refine_mesh. cbv zeta. fold r2.
  destruct (nonempty_dec (gshape r2)) as [H2 | H2];
    [rewrite (last_x_Ok r2 H2) | rewrite (last_x_Raise r2 H2)];
    cbn [rbind].
  - destruct (nonempty_dec (gshape (Interpolation.r m))) as [H1 | H1];
      [rewrite (last_x_Ok _ H1) | rewrite (last_x_Raise _ H1)];
      cbn [rbind].
    + split; [| discriminate].
      split; [intros _; split; assumption | intros _; eexists; reflexivity].
    + split; [| intros e [= <-]; reflexivity].
      split; [intros [m' Hm']; discriminate Hm' | intros [_ H]; contradiction].
  - split; [| intros e [= <-]; reflexivity].
    split; [intros [m' Hm']; discriminate Hm' | intros [H _]; contradiction].
Qed.

(** A refinement halves the spacing and the widths along [x] and [y], and
    sets the width along [z] to the new width along [y], whatever it was.
    The new mesh is the one [generatedomain] returns for these values, moved
    along [x]: its shape and its [y] and [z] coordinates are kept, and every
    [x] coordinate is moved by the same amount. *)
Theorem refine_mesh_translates
    (generatedomain : Q -> Q -> Q -> Q -> grid) (m m' : Interpolation.mesh)
    (Href : Interpolation.refine_mesh generatedomain m = Ok m') :
  let r2 := generatedomain (Interpolation.dx m / 2)%Q (Interpolation.wx m / 2)%Q
              (Interpolation.wy m / 2)%Q (Interpolation.wy m / 2)%Q in
  Interpolation.dx m' = (Interpolation.dx m / 2)%Q /\
  Interpolation.wx m' = (Interpolation.wx m / 2)%Q /\
  Interpolation.wy m' = (Interpolation.wy m / 2)%Q /\
  Interpolation.wz m' = Interpolation.wy m' /\
  gshape (Interpolation.r m') = gshape r2 /\
  (forall i j k d, d <> 0 ->
     coords (Interpolation.r m') i j k d = coords r2 i j k d) /\
  exists shift : Q,
    forall i j k,
      (coords (Interpolation.r m') i j k 0 == coords r2 i j k 0 + shift)%Q.
Proof.
  intros r2.
  destruct (refine_mesh_inv generatedomain m m' Href)
    as (r2_far & r_far & _ & _ & ->).
  fold r2. cbn.
  repeat split; try reflexivity.
  - intros i j k d Hd. destruct d; [contradiction | reflexivity].
  - exists (- r2_far + r_far + - Interpolation.dx m / 2
            - Interpolation.dx m / 2 / 2)%Q.
    intros i j k. ring.
Qed.

Lemma refine_mesh_translates_witness :
  exists m',
    Interpolation.refine_mesh Demo.generatedomain Demo.mesh0 = Ok m' /\
    Interpolation.wz m' = Interpolation.wy m' /\
    gshape (Interpolation.r m') = (4, 2, 2).
Proof.
  eexists.
  destruct (refine_mesh_translates Demo.generatedomain Demo.mesh0 _ eq_refl)
    as (_ & _ & _ & Hwz & Hshape & _).
  repeat split; assumption.
Defined.

Lemma refine_times_succ (generatedomain : Q -> Q -> Q -> Q -> grid)
    (n : nat) (m m' : Interpolation.mesh) :
  Derived.refine_times generatedomain (S n) m = Ok m' ->
  exists m1,
    Derived.refine_times generatedomain n m = Ok m1 /\
    Interpolation.refine_mesh generatedomain m1 = Ok m'.
Proof.
  unfold Derived.refine_times. rewrite Nat.iter_succ.
  destruct (Nat.iter n _ (Ok m)) as [m1 |]; cbn [rbind]; [| discriminate].
  intros Href. exists m1. split; [reflexivity | exact Href].
Qed.

(** After [n] successive refinements the spacing and the widths along [x]
    and [y] are those of the first mesh divided by [2^n]; from the first
    refinement on the width along [z] equals the width along [y]. *)
Theorem refine_times_spacing
    (generatedomain : Q -> Q -> Q -> Q -> grid)
    (n : nat) (m m' : Interpolation.mesh)
    (Href : Derived.refine_times generatedomain n m = Ok m') :
  let two_n := inject_Z (2 ^ Z.of_nat n) in
  (Interpolation.dx m' == Interpolation.dx m / two_n)%Q /\
  (Interpolation.wx m' == Interpolation.wx m / two_n)%Q /\
  (Interpolation.wy m' == Interpolation.wy m / two_n)%Q /\
  (1 <= n -> Interpolation.wz m' = Interpolation.wy m').
Proof.
  revert m' Href. induction n as [| n IH]; intros m' Href.
  - cbn in Href. injection Href as <-. cbn.
    change (inject_Z (2 ^ Z.of_nat 0)) with 1%Q.
    split; [| split; [| split]]; [field | field | field | intros Hn; lia].
  - apply refine_times_succ in Href as (m1 & Hn & Href).
    destruct (IH m1 Hn) as (Hdx & Hwx & Hwy & _).
    destruct (refine_mesh_inv generatedomain m1 m' Href)
      as (r2_far & r_far & _ & _ & ->).
    cbn [Interpolation.dx Interpolation.wx Interpolation.wy Interpolation.wz].
    assert (Hpow : (inject_Z (2 ^ Z.of_nat (S n))
                    == 2 * inject_Z (2 ^ Z.of_nat n))%Q).
    { rewrite Nat2Z.inj_succ, Z.pow_succ_r by lia.
      rewrite inject_Z_mult. reflexivity. }
    assert (Hnz : ~ (inject_Z (2 ^ Z.of_nat n) == 0)%Q).
    { intros Hz. unfold Qeq in Hz. cbn in Hz.
      pose proof (Z.pow_pos_nonneg 2 (Z.of_nat n)). lia. }
    cbv zeta.
    split; [| split; [| split]].
    + rewrite Hpow, Hdx. field. exact Hnz.
    + rewrite Hpow, Hwx. field. exact Hnz.
    + rewrite Hpow, Hwy. field. exact Hnz.
    + intros _. reflexivity.
Qed.

Lemma refine_times_spacing_witness :
  exists m',
    Derived.refine_times Demo.generatedomain 2 Demo.mesh0 = Ok m' /\
    (Interpolation.dx m' == 0.025)%Q /\
    Interpolation.wz m' = Interpolation.wy m'.
Proof.
  eexists.
  destruct (refine_times_spacing Demo.generatedomain 2 Demo.mesh0 _ eq_refl)
    as (Hdx & _ & _ & Hwz).
  split; [reflexivity | split; [| apply Hwz; lia]].
  rewrite Hdx. reflexivity.
Defined.

(** ** The branches of the ladder *)

(** In the ladder of the domain-convergence script the branch of order [i]
    reads the fields 0 to [i - 1]: it raises [IndexError] exactly when [P]
    has fewer than [i] fields, for [i] from 1 to 4, and it raises nothing
    else; no other order raises. *)
Theorem xIn_ladder_raises_iff
    {F : Type} `{ArrayOps F} (beta omega rho c : Q) (i_harm : nat)
    (P : list F) :
  ((exists e, Convergence.xIn_ladder beta omega rho c i_harm P = Raised e) <->
   1 <= i_harm <= 4 /\ length P < i_harm) /\
  (forall e, Convergence.xIn_ladder beta omega rho c i_harm P = Raised e ->
             e = IndexError).
Proof.
  unfold Convergence.xIn_ladder, getitem.
  destruct i_harm as [| [| [| [| [| i]]]]].
  - split; [split; [intros [e He]; discriminate He | lia] | discriminate].
  - destruct P as [| a0 P]; cbn.
    + split; [split; [intros _; lia | intros _; eauto] |
              intros e [= <-]; reflexivity].
    + split; [split; [intros [e He]; discriminate He | lia] | discriminate].
  - destruct P as [| a0 [| a1 P]]; cbn;
      (split; [split; [first [intros [e He]; discriminate He | intros _; lia]
                      | first [lia | intros _; eauto]]
              | first [discriminate | intros e [= <-]; reflexivity]]).
  - destruct P as [| a0 [| a1 [| a2 P]]]; cbn;
      (split; [split; [first [intros [e He]; discriminate He | intros _; lia]
                      | first [lia | intros _; eauto]]
              | first [discriminate | intros e [= <-]; reflexivity]]).
  - destruct P as [| a0 [| a1 [| a2 [| a3 P]]]]; cbn;
      (split; [split; [first [intros [e He]; discriminate He | intros _; lia]
                      | first [lia | intros _; eauto]]
              | first [discriminate | intros e [= <-]; reflexivity]]).
  - split; [split; [intros [e He]; discriminate He | lia] | discriminate].
Qed.

(** The source term is linear in [beta] and quadratic in the fields: with
    [beta] multiplied by [t] and every field by [s], the branch that ran
    runs again and gives [t * s * s] times the source term. *)
Theorem xIn_ladder_quadratic
    (beta omega rho c s t : Q) (i_harm : nat) (P : list ndarray) (x : ndarray)
    (Hx : Convergence.xIn_ladder beta omega rho c i_harm P = Assigned x) :
  exists y,
    Convergence.xIn_ladder (t * beta) omega rho c i_harm (map (ascale s) P)
      = Assigned y /\
    y ≡ ascale (t * s * s) x.
Proof.
  unfold Convergence.xIn_ladder, getitem in *.
  destruct i_harm as [| [| [| [| [| i]]]]]; try discriminate Hx.
  - destruct P as [| a0 P]; [discriminate Hx |].
    cbn in Hx. injection Hx as <-.
    eexists. split; [reflexivity |].
    split; [reflexivity | intros i j k; voxel_ring].
  - destruct P as [| a0 [| a1 P]]; try discriminate Hx.
    cbn in Hx. injection Hx as <-.
    eexists. split; [reflexivity |].
    split; [reflexivity | intros i j k; voxel_ring].
  - destruct P as [| a0 [| a1 [| a2 P]]]; try discriminate Hx.
    cbn in Hx. injection Hx as <-.
    eexists. split; [reflexivity |].
    split; [reflexivity | intros i j k; voxel_ring].
  - destruct P as [| a0 [| a1 [| a2 [| a3 P]]]]; try discriminate Hx.
    cbn in Hx. injection Hx as <-.
    eexists. split; [reflexivity |].
    split; [reflexivity | intros i j k; voxel_ring].
Qed.

Lemma xIn_ladder_quadratic_witness :
  let p := fun v => Demo.const (1, 1, 1) v in
  let P := [p 1; p 2; p 3]%Q in
  exists x y,
    Convergence.xIn_ladder 1 1 1 1 3 P = Assigned x /\
    Convergence.xIn_ladder (5 * 1) 1 1 1 3 (map (ascale 2) P) = Assigned y /\
    y ≡ ascale (5 * 2 * 2) x.
Proof.
  intros p P. eexists.
  destruct (xIn_ladder_quadratic 1 1 1 1 2 5 3 P _ eq_refl) as (y & Hy & Heq).
  exists y. split; [reflexivity | split; assumption].
Defined.

(** ** The centre line *)

Lemma Qfloor_half (m : Z) : Qfloor (inject_Z m / 2) = (m / 2)%Z.
Proof.
  unfold Qdiv, Qmult, Qinv, inject_Z, Qfloor. cbn.
  rewrite Z.mul_1_r. reflexivity.
Qed.

Lemma np_round_half (m : Z) :
  Axis.np_round (inject_Z m / 2) =
  if Z.even m then (m / 2)%Z
  else if Z.even (m / 2) then (m / 2)%Z else (m / 2 + 1)%Z.
Proof.
  unfold Axis.np_round. rewrite Qfloor_half. cbv zeta.
  pose proof (Z.div_mod m 2 ltac:(lia)) as Hdm.
  pose proof (Z.mod_pos_bound m 2 ltac:(lia)) as Hb.
  assert (Hd : (inject_Z m / 2 - inject_Z (m / 2)
                == inject_Z (m mod 2) / 2)%Q).
  { rewrite Hdm at 1. rewrite inject_Z_plus, inject_Z_mult. field. }
  unfold Convergence.Qlt_bool.
  rewrite (Zeven_mod m).
  destruct (Z.eq_dec (m mod 2)%Z 0%Z) as [H0 | H1].
  - rewrite H0 in Hd. rewrite H0. cbn [Z.eqb].
    assert (Hle : Qle_bool (1 # 2) (inject_Z m / 2 - inject_Z (m / 2)) = false).
    { destruct (Qle_bool _ _) eqn:E; [| reflexivity].
      apply Qle_bool_iff in E. rewrite Hd in E. vm_compute in E.
      exfalso. apply E. reflexivity. }
    rewrite Hle. reflexivity.
  - assert (H : (m mod 2 = 1)%Z) by lia.
    rewrite H in Hd. rewrite H. cbn [Z.eqb].
    assert (Hle1 : Qle_bool (1 # 2) (inject_Z m / 2 - inject_Z (m / 2)) = true).
    { apply Qle_bool_iff. rewrite Hd. vm_compute. discriminate. }
    assert (Hle2 : Qle_bool (inject_Z m / 2 - inject_Z (m / 2)) (1 # 2) = true).
    { apply Qle_bool_iff. rewrite Hd. vm_compute. discriminate. }
    rewrite Hle1, Hle2. reflexivity.
Qed.

(** Along an axis of [M >= 1] voxels the interpolation script samples its
    centre line at [round(M/2) - 1], an index that always lies inside the
    array: it selects the plane [floor(M/2)] that the domain-convergence
    script takes as the centre, or the plane just below it, and always the
    plane below for an even [M].  The index is negative only for [M = 1],
    where [-1] selects the single plane. *)
Theorem centre_line_index (M : nat) (HM : 1 <= M) :
  exists j,
    Axis.axis_index M (Axis.ny_centre M) = Ok j /\
    j < M /\
    Axis.ny_centre_floor M = Z.of_nat (M / 2) /\
    M / 2 - 1 <= j <= M / 2 /\
    (Nat.even M = true -> j = M / 2 - 1) /\
    ((Axis.ny_centre M < 0)%Z <-> M = 1).
Proof.
  unfold Axis.ny_centre_floor, Axis.ny_centre, Axis.axis_index.
  rewrite Qfloor_half, np_round_half.
  assert (Hdiv : Z.of_nat (M / 2) = (Z.of_nat M / 2)%Z)
    by (rewrite Nat2Z.inj_div; reflexivity).
  assert (Heven : Nat.even M = Z.even (Z.of_nat M)).
  { destruct (Nat.even M) eqn:E.
    - apply Nat.even_spec in E as [b ->]. symmetry. apply Z.even_spec.
      exists (Z.of_nat b). lia.
    - symmetry. apply not_true_is_false. intros Ht.
      apply Z.even_spec in Ht as [b Hb].
      assert (Nat.even M = true); [| congruence].
      apply Nat.even_spec. exists (Z.to_nat b). lia. }
  rewrite Heven.
  remember (Z.of_nat M) as m eqn:Hmdef.
  pose proof (Z.div_mod m 2 ltac:(discriminate)) as Hdm.
  pose proof (Z.mod_pos_bound m 2 eq_refl) as Hbound.
  rewrite (Zeven_mod m), (Zeven_mod (m / 2)).
  pose proof (Z.div_mod (m / 2) 2 ltac:(discriminate)) as Hdk.
  pose proof (Z.mod_pos_bound (m / 2) 2 eq_refl) as Hbk.
  remember (m / 2)%Z as k eqn:Hk.
  remember (M / 2) as q eqn:Hq.
  remember (m mod 2)%Z as rm eqn:Hrm.
  remember (k mod 2)%Z as rk eqn:Hrk.
  remember (k / 2)%Z as k2 eqn:Hk2.
  clear Heven Hk Hq Hrm Hrk Hk2.
  destruct (Z.eqb_spec rm 0) as [Hr0 | Hr1].
  - assert (Hc1 : ((0 <=? k - 1) && (k - 1 <? m))%Z = true).
    { apply andb_true_iff. split; [apply Z.leb_le | apply Z.ltb_lt]; lia. }
    rewrite Hc1. exists (Z.to_nat (k - 1)).
    repeat split; try reflexivity; try lia.
  - destruct (Z.eqb_spec rk 0) as [Hk0 | Hk1].
    + destruct (Z.eq_dec k 0%Z) as [Hz | Hnz].
      * assert (Hm1 : m = 1%Z) by lia.
        assert (HM1 : M = 1) by lia.
        assert (Hq0 : q = 0) by lia.
        rewrite Hz, Hm1, Hq0. cbn.
        exists 0. repeat split; try reflexivity; try lia.
      * assert (Hc1 : ((0 <=? k - 1) && (k - 1 <? m))%Z = true).
        { apply andb_true_iff. split; [apply Z.leb_le | apply Z.ltb_lt]; lia. }
        rewrite Hc1. exists (Z.to_nat (k - 1)).
        repeat split; try reflexivity; try lia.
        all: try (intros Hf; discriminate Hf).
    + assert (Hc1 : ((0 <=? k + 1 - 1) && (k + 1 - 1 <? m))%Z = true).
      { apply andb_true_iff. split; [apply Z.leb_le | apply Z.ltb_lt]; lia. }
      rewrite Hc1. exists (Z.to_nat (k + 1 - 1)).
      repeat split; try reflexivity; try lia.
      all: try (intros Hf; discriminate Hf).
Qed.

Lemma centre_line_index_witness :
  1 <= 5 /\
  exists j, Axis.axis_index 5 (Axis.ny_centre 5) = Ok j /\ j < 5 /\ j = 1.
Proof.
  split; [lia |].
  destruct (centre_line_index 5 ltac:(lia)) as (j & Hj & Hlt & _ & _ & _ & _).
  exists j. split; [exact Hj |]. split; [exact Hlt |].
  vm_compute in Hj. injection Hj as Hj. symmetry. exact Hj.
Defined.

(** ** The fields of the interpolation script *)

Section InterpolationFields.
Context {F G : Type} `{ArrayOps F}.
Variable refine : G -> result G.
Variable mvp_volume_potential : nat -> G -> F -> F.
Variable interpolate : G * F -> G -> result F.
Variables beta omega rho c : Q.

(** A turn that returns has appended one field to [P]: the volume potential
    on the mesh that is current after the turn. *)
Lemma harmonic_step_appends (i : nat) (s s' : Interpolation.state) :
  Interpolation.harmonic_step refine mvp_volume_potential interpolate
    beta omega rho c i s = Ok s' ->
  exists x,
    Interpolation.P s' =
    Interpolation.P s ++
      [mvp_volume_potential i (Interpolation.cur s') x].
Proof.
  unfold Interpolation.harmonic_step.
  destruct (Interpolation.refinement_stage refine i s) as [s1 | e] eqn:E1;
    cbn [rbind]; [| discriminate].
  destruct (Interpolation.source_stage interpolate beta omega rho c i s1)
    as [s2 | e] eqn:E2; cbn [rbind]; [| discriminate].
  intros E3.
  assert (HP1 : Interpolation.P s1 = Interpolation.P s).
  { unfold Interpolation.refinement_stage in E1.
    destruct (Interpolation.refines i).
    - destruct (refine (Interpolation.cur s)); cbn [rbind] in E1;
        [| discriminate].
      injection E1 as E1. subst s1. reflexivity.
    - injection E1 as E1. subst s1. reflexivity. }
  assert (HP2 : Interpolation.P s2 = Interpolation.P s1 /\
                Interpolation.cur s2 = Interpolation.cur s1).
  { unfold Interpolation.source_stage in E2.
    destruct (Interpolation.xIn_ladder interpolate beta omega rho c i
                (Interpolation.P s1) (Interpolation.interp_funs s1)
                (Interpolation.points2 s1)); cbn [rbind] in E2;
      try discriminate; injection E2 as E2; subst s2; split; reflexivity. }
  destruct HP2 as [HP2 Hc2].
  unfold Interpolation.solve_stage in E3.
  destruct (Interpolation.name (Interpolation.xIn s2)) as [x | e];
    cbn [rbind] in E3; [| discriminate].
  destruct (getitem
              (Interpolation.P s2 ++
                 [mvp_volume_potential i (Interpolation.cur s2) x]) i)
    as [Pi | e]; cbn [rbind] in E3; [| discriminate].
  injection E3 as E3. subst s'. exists x.
  cbn [Interpolation.P Interpolation.cur]. rewrite HP2, HP1. reflexivity.
Qed.

End InterpolationFields.

Lemma loop_fields {F G : Type} `{ArrayOps F} (rf : G -> G)
    (mvp_volume_potential : nat -> G -> F -> F) (itp : G * F -> G -> F)
    (beta omega rho c : Q) (r0 : G) (p : F) (n k : nat)
    (s : Interpolation.state) :
  Derived.between_turns rf r0 k s ->
  Interpolation.P s !! 0 = Some p ->
  (forall i, 1 <= i <= k ->
     exists x, Interpolation.P s !! i =
               Some (mvp_volume_potential i
                       (Nat.iter (Nat.log2 i) rf r0) x)) ->
  exists s',
    Interpolation.harmonic_loop (fun g => Ok (rf g)) mvp_volume_potential
      (fun f pts => Ok (itp f pts)) beta omega rho c (seq (S k) n) s
      = Ok s' /\
    Interpolation.P s' !! 0 = Some p /\
    (forall i, 1 <= i <= k + n ->
       exists x, Interpolation.P s' !! i =
                 Some (mvp_volume_potential i
                         (Nat.iter (Nat.log2 i) rf r0) x)).
Proof.
  revert k s. induction n as [| n IH]; intros k s Hinv H0 Hfields.
  - exists s. rewrite Nat.add_0_r. split; [reflexivity |].
    split; [exact H0 | exact Hfields].
  - destruct (step_between_turns rf mvp_volume_potential itp beta omega rho c
                r0 k s Hinv) as (s1 & Hstep & Hinv1).
    destruct (harmonic_step_appends _ _ _ _ _ _ _ _ _ _ Hstep) as [x HP1].
    pose proof Hinv as (_ & Hlen & _).
    pose proof Hinv1 as (Hcur1 & _).
    assert (H01 : Interpolation.P s1 !! 0 = Some p).
    { rewrite HP1, lookup_app_l by lia. exact H0. }
    assert (Hfields1 : forall i, 1 <= i <= S k ->
              exists x, Interpolation.P s1 !! i =
                        Some (mvp_volume_potential i
                                (Nat.iter (Nat.log2 i) rf r0) x)).
    { intros i Hi. destruct (Nat.eq_dec i (S k)) as [-> | Hne].
      - exists x. rewrite HP1, <- Hcur1.
        apply list_lookup_middle. symmetry. exact Hlen.
      - destruct (Hfields i ltac:(lia)) as [y Hy]. exists y.
        rewrite HP1, lookup_app_l by lia. exact Hy. }
    destruct (IH (S k) s1 Hinv1 H01 Hfields1) as (s' & Hloop & H0' & Hf').
    exists s'. split; [| split].
    + cbn [seq Interpolation.harmonic_loop]. rewrite Hstep. cbn [rbind].
      exact Hloop.
    + exact H0'.
    + intros i Hi. apply Hf'. lia.
Qed.

(** In the interpolation script, when the refinement and the interpolators
    raise nothing, the field of every harmonic [i] from 1 to [n_harm - 1]
    ends as the volume potential computed on the mesh that was refined
    [log2 i] times (rounded down): the fields of the orders 2 and 3 share one
    mesh, those of the orders 4 to 7 the next one, and the incident field
    [P[0]] stays on the first mesh. *)
Theorem interpolation_fields_on_refined_meshes
    {F G : Type} `{ArrayOps F} (rf : G -> G)
    (mvp_volume_potential : nat -> G -> F -> F) (itp : G * F -> G -> F)
    (beta omega rho c : Q) (n_harm : nat) (r0 : G) (p : F) (i : nat)
    (Hi : 1 <= i < n_harm) :
  exists s x,
    Interpolation.cascade (fun g => Ok (rf g)) mvp_volume_potential
      (fun f pts => Ok (itp f pts)) beta omega rho c n_harm
      (Interpolation.initial r0 p) = Ok s /\
    Interpolation.P s !! 0 = Some p /\
    Interpolation.P s !! i =
      Some (mvp_volume_potential i (Nat.iter (Nat.log2 i) rf r0) x).
Proof.
  assert (Hinit : Derived.between_turns rf r0 0 (Interpolation.initial r0 p)).
  { unfold Derived.between_turns. cbn.
    repeat split; try reflexivity; intros Hk; lia. }
  destruct (loop_fields rf mvp_volume_potential itp beta omega rho c r0 p
              (n_harm - 1) 0 _ Hinit eq_refl)
    as (s & Hloop & H0 & Hfields).
  { intros j Hj. lia. }
  destruct (Hfields i ltac:(lia)) as [x Hx].
  exists s, x. split; [exact Hloop |]. split; [exact H0 | exact Hx].
Qed.

Lemma interpolation_fields_on_refined_meshes_witness :
  1 <= 4 < 5 /\
  exists s,
    Interpolation.mesh_cascade 5 = Ok s /\
    Interpolation.P s !! 0 = Some [0] /\
    Interpolation.P s !! 4 = Some [2].
Proof.
  split; [lia |].
  destruct (@interpolation_fields_on_refined_meshes
              Interpolation.sampled_on nat Interpolation.sampled_on_ops
              S Interpolation.mvp_mesh (fun _ pts => [pts]) 1 1 1 1 5 0 [0] 4
              ltac:(lia)) as (s & x & Hrun & H0 & H4).
  exists s. split; [exact Hrun |]. split; [exact H0 | exact H4].
Defined.
